(** * Physika: 2D vectors and volumetric meshes

    A shallow embedding of
      - [Physika_Geometry/Volumetric_Meshes/volumetric_mesh.h]
        (class template [VolumetricMesh<Scalar,Dim>]) and
      - [Physika_Core/Vectors/vector_2d.cpp]
        (class template [Vector2D<Scalar>], instantiated at [float] and
        [double]),
    followed by the properties of the two classes. *)

From Stdlib Require Import ZArith List Bool String Ascii Lia.
From Stdlib Require Import Floats.
Import ListNotations.
Local Open Scope Z_scope.

(** ** Outcomes of a call

    A member function either returns, or prints a diagnostic on [std::cerr]
    and calls [std::exit(EXIT_FAILURE)], or does neither: it reads outside an
    array or overflows a signed integer, which the language leaves undefined,
    or it evaluates [new T[n]] with a negative [n], undefined before C++11 and
    an exception, [std::bad_array_new_length], since. *)

Inductive outcome (A : Type) : Type :=
| Ok (a : A)
| Exit (msg : string)
| Undef.
Arguments Ok {A} a.
Arguments Exit {A} msg.
Arguments Undef {A}.

Definition bind {A B : Type} (c : outcome A) (k : A -> outcome B) : outcome B :=
  match c with
  | Ok a => k a
  | Exit msg => Exit msg
  | Undef => Undef
  end.

Declare Scope outcome_scope.
Delimit Scope outcome_scope with outcome.
Notation "x <- c ;; k" := (bind c (fun x => k))
  (at level 61, c at next level, right associativity) : outcome_scope.
Local Open Scope outcome_scope.

Definition is_exit {A : Type} (c : outcome A) : bool :=
  match c with
  | Exit _ => true
  | _ => false
  end.

(** ** The type [int] *)

Definition INT_MIN : Z := - 2 ^ 31.
Definition INT_MAX : Z := 2 ^ 31 - 1.

Definition in_int (z : Z) : bool := (INT_MIN <=? z) && (z <=? INT_MAX).

(** The value of an [int] expression: overflow is undefined. *)
Definition to_int (z : Z) : outcome Z := if in_int z then Ok z else Undef.

Definition int_add (a b : Z) : outcome Z := to_int (a + b).
Definition int_mul (a b : Z) : outcome Z := to_int (a * b).

(** ** Arrays *)

(** [a[i]] for an array known to hold [length a] cells. *)
Definition array_get {A : Type} (a : list A) (i : Z) : outcome A :=
  if i <? 0 then Undef
  else match nth_error a (Z.to_nat i) with
       | Some x => Ok x
       | None => Undef
       end.

(** [dst = new T[n]; memcpy(dst, src, n * sizeof(T));] where [src] points to
    the first cell of the caller's array: outside the defined behaviour for a
    negative [n] and for an array of fewer than [n] cells. *)
Definition new_copy {A : Type} (src : list A) (n : Z) : outcome (list A) :=
  if n <? 0 then Undef
  else if Z.of_nat (List.length src) <? n then Undef
  else Ok (firstn (Z.to_nat n) src).

(** [for (int i = i0; i < i0 + n; ++i) acc += a[i];] *)
Fixpoint sum_loop (a : list Z) (i : Z) (n : nat) (acc : Z) : outcome Z :=
  match n with
  | O => Ok acc
  | S n' =>
      c <- array_get a i ;;
      acc' <- int_add acc c ;;
      sum_loop a (i + 1) n' acc'
  end.

Definition newline : string := String (ascii_of_nat 10) EmptyString.

Definition msg_vertex : string := ("vertex index out of range!" ++ newline)%string.
Definition msg_element : string := ("element index out of range!" ++ newline)%string.
Definition msg_local : string := ("vert_idx out of range" ++ newline)%string.

(** ** volumetric_mesh.h *)

Section VolumetricMesh.

(** The template parameters. *)
Variable Scalar : Type.
Variable Dim : Z.

(** Modelled from the spec: [Vector<Scalar,Dim>], declared in vector_2d.h and
    vector_3d.h, holds exactly [Dim] scalar components stored contiguously
    and indexed by [operator[]]; it is the list of its components. *)
Definition Vector : Type := list Scalar.

Record VolumetricMesh : Type := {
  vert_num_ : Z;
  vertices_ : list Scalar;
  ele_num_ : Z;
  elements_ : list Z;
  vert_per_ele_ : list Z;
  uniform_ele_type_ : bool
}.

(** [VolumetricMesh()] *)
Definition VolumetricMesh_default : VolumetricMesh :=
  {| vert_num_ := 0; vertices_ := []; ele_num_ := 0; elements_ := [];
     vert_per_ele_ := []; uniform_ele_type_ := false |}.

(** [init(vert_num, vertices, ele_num, elements, vert_per_ele, uniform_ele_type)] *)
Definition init (vert_num : Z) (vertices : list Scalar) (ele_num : Z)
    (elements : list Z) (vert_per_ele : list Z) (uniform_ele_type : bool)
    : outcome VolumetricMesh :=
  n <- int_mul vert_num Dim ;;
  vs <- new_copy vertices n ;;
  ct <- (if uniform_ele_type then
           k <- array_get vert_per_ele 0 ;;
           total <- int_mul ele_num k ;;
           Ok ([k], total)
         else
           vpe <- new_copy vert_per_ele ele_num ;;
           total <- sum_loop vpe 0 (Z.to_nat ele_num) 0 ;;
           Ok (vpe, total)) ;;
  es <- new_copy elements (snd ct) ;;
  Ok {| vert_num_ := vert_num; vertices_ := vs; ele_num_ := ele_num;
        elements_ := es; vert_per_ele_ := fst ct;
        uniform_ele_type_ := uniform_ele_type |}.

(** [VolumetricMesh(vert_num, vertices, ele_num, elements, int vert_per_ele)]:
    [init] receives the address of the by-value parameter. *)
Definition VolumetricMesh_uniform (vert_num : Z) (vertices : list Scalar)
    (ele_num : Z) (elements : list Z) (vert_per_ele : Z) : outcome VolumetricMesh :=
  init vert_num vertices ele_num elements [vert_per_ele] true.

(** [VolumetricMesh(vert_num, vertices, ele_num, elements, const int *vert_per_ele_list)] *)
Definition VolumetricMesh_ragged (vert_num : Z) (vertices : list Scalar)
    (ele_num : Z) (elements : list Z) (vert_per_ele_list : list Z)
    : outcome VolumetricMesh :=
  init vert_num vertices ele_num elements vert_per_ele_list false.

Definition vertNum (m : VolumetricMesh) : Z := vert_num_ m.
Definition eleNum (m : VolumetricMesh) : Z := ele_num_ m.
Definition isUniformElementType (m : VolumetricMesh) : bool := uniform_ele_type_ m.

Definition eleVertNum (m : VolumetricMesh) (ele_idx : Z) : outcome Z :=
  if uniform_ele_type_ m then array_get (vert_per_ele_ m) 0
  else array_get (vert_per_ele_ m) ele_idx.

(** [for (int i = i0; i < i0 + n; ++i) pos[i] = vertices_[Dim*vert_idx+i];]
    yields the components [pos[i0]], [pos[i0+1]], ... in order. *)
Fixpoint vertPos_loop (m : VolumetricMesh) (vert_idx : Z) (i : Z) (n : nat)
    : outcome Vector :=
  match n with
  | O => Ok []
  | S n' =>
      base <- int_mul Dim vert_idx ;;
      j <- int_add base i ;;
      x <- array_get (vertices_ m) j ;;
      rest <- vertPos_loop m vert_idx (i + 1) n' ;;
      Ok (x :: rest)
  end.

Definition vertPos (m : VolumetricMesh) (vert_idx : Z) : outcome Vector :=
  if (vert_idx <? 0) || (vert_idx >=? vert_num_ m) then Exit msg_vertex
  else vertPos_loop m vert_idx 0 (Z.to_nat Dim).

(** The first half of [eleVertPos]: the checks and [ele_idx_start]. *)
Definition ele_idx_start (m : VolumetricMesh) (ele_idx vert_idx : Z) : outcome Z :=
  if (ele_idx <? 0) || (ele_idx >=? ele_num_ m) then Exit msg_element
  else if uniform_ele_type_ m then
    k <- array_get (vert_per_ele_ m) 0 ;;
    if (vert_idx <? 0) || (vert_idx >=? k) then Exit msg_local
    else int_mul ele_idx k
  else
    c <- array_get (vert_per_ele_ m) ele_idx ;;
    if (vert_idx <? 0) || (vert_idx >=? c) then Exit msg_local
    else sum_loop (vert_per_ele_ m) 0 (Z.to_nat ele_idx) 0.

Definition eleVertPos (m : VolumetricMesh) (ele_idx vert_idx : Z) : outcome Vector :=
  start <- ele_idx_start m ele_idx vert_idx ;;
  off <- int_add start vert_idx ;;
  global_vert_idx <- array_get (elements_ m) off ;;
  vertPos m global_vert_idx.

End VolumetricMesh.

Arguments vert_num_ {Scalar} _.
Arguments vertices_ {Scalar} _.
Arguments ele_num_ {Scalar} _.
Arguments elements_ {Scalar} _.
Arguments vert_per_ele_ {Scalar} _.
Arguments uniform_ele_type_ {Scalar} _.
Arguments init {Scalar} Dim vert_num vertices ele_num elements vert_per_ele uniform_ele_type.
Arguments VolumetricMesh_uniform {Scalar} Dim vert_num vertices ele_num elements vert_per_ele.
Arguments VolumetricMesh_ragged {Scalar} Dim vert_num vertices ele_num elements vert_per_ele_list.
Arguments vertNum {Scalar} m.
Arguments eleNum {Scalar} m.
Arguments isUniformElementType {Scalar} m.
Arguments eleVertNum {Scalar} m ele_idx.
Arguments vertPos_loop {Scalar} Dim m vert_idx i n.
Arguments vertPos {Scalar} Dim m vert_idx.
Arguments ele_idx_start {Scalar} m ele_idx vert_idx.
Arguments eleVertPos {Scalar} Dim m ele_idx vert_idx.

(** ** Scalars

    [Vector2D<Scalar>] is compiled for [Scalar = float] and [Scalar = double]
    (the two explicit instantiations that close vector_2d.cpp). The class uses
    the arithmetic of the scalar type, its comparison and the literals that
    the callers convert to it. [to_SF] gives the IEEE 754 value a scalar
    stands for, in the format [s_prec], [s_emax]. Every operation is rounded
    to the scalar type, to nearest with ties to even (no excess precision and
    no fused multiply-add). *)

Class ScalarOps (Scalar : Type) : Type := {
  s_add : Scalar -> Scalar -> Scalar;
  s_sub : Scalar -> Scalar -> Scalar;
  s_mul : Scalar -> Scalar -> Scalar;
  s_div : Scalar -> Scalar -> Scalar;
  s_neg : Scalar -> Scalar;
  s_sqrt : Scalar -> Scalar;
  s_eqb : Scalar -> Scalar -> bool;
  s_zero : Scalar;
  s_one : Scalar;
  s_prec : Z;
  s_emax : Z;
  to_SF : Scalar -> spec_float
}.

(** [double]: the binary64 numbers of the machine. *)
Definition double : Type := PrimFloat.float.

#[export] Instance double_ops : ScalarOps double := {|
  s_add := PrimFloat.add;
  s_sub := PrimFloat.sub;
  s_mul := PrimFloat.mul;
  s_div := PrimFloat.div;
  s_neg := PrimFloat.opp;
  s_sqrt := PrimFloat.sqrt;
  s_eqb := PrimFloat.eqb;
  s_zero := PrimFloat.zero;
  s_one := PrimFloat.one;
  s_prec := FloatOps.prec;
  s_emax := FloatOps.emax;
  to_SF := Prim2SF
|}.

(** [float]: binary32, 24 bits of precision and exponents below 128, with the
    operations of the IEEE 754 specification at that format. *)
Definition float_prec : Z := 24.
Definition float_emax : Z := 128.
Definition float : Type := spec_float.

#[export] Instance float_ops : ScalarOps float := {|
  s_add := SFadd float_prec float_emax;
  s_sub := SFsub float_prec float_emax;
  s_mul := SFmul float_prec float_emax;
  s_div := SFdiv float_prec float_emax;
  s_neg := SFopp;
  s_sqrt := SFsqrt float_prec float_emax;
  s_eqb := SFeqb;
  s_zero := S754_zero false;
  s_one := S754_finite false 8388608 (-23);
  s_prec := float_prec;
  s_emax := float_emax;
  to_SF := fun x => x
|}.

(** [template class Vector2D<float>; template class Vector2D<double>;] *)
Inductive instantiation : Type :=
| Vector2D_float
| Vector2D_double.

Definition scalar_of (i : instantiation) : Type :=
  match i with
  | Vector2D_float => float
  | Vector2D_double => double
  end.

#[export] Instance scalar_of_ops (i : instantiation) : ScalarOps (scalar_of i) :=
  match i with
  | Vector2D_float => float_ops
  | Vector2D_double => double_ops
  end.

Definition is_nan {Scalar : Type} `{ScalarOps Scalar} (x : Scalar) : bool :=
  match to_SF x with
  | S754_nan => true
  | _ => false
  end.

Definition is_finite {Scalar : Type} `{ScalarOps Scalar} (x : Scalar) : bool :=
  match to_SF x with
  | S754_zero _ | S754_finite _ _ _ => true
  | _ => false
  end.

(** ** vector_2d.cpp, with PHYSIKA_USE_EIGEN_VECTOR defined *)

Section Vector2D.

Context {Scalar : Type} `{ScalarOps Scalar}.

(** Modelled from the spec: the data member [eigen_vector_2x_], declared in
    vector_2d.h, holds exactly two scalar components stored contiguously,
    reached by [eigen_vector_2x_(0)] and [eigen_vector_2x_(1)]. *)
Record Vector2D : Type := { eigen_vector_2x_ : Scalar * Scalar }.

(** The value read by [eigen_vector_2x_(idx)]; the class only ever passes
    0 and 1. *)
Definition coeff (v : Vector2D) (idx : Z) : Scalar :=
  if idx =? 0 then fst (eigen_vector_2x_ v) else snd (eigen_vector_2x_ v).

(** [eigen_vector_2x_(idx) = x;] *)
Definition set_coeff (v : Vector2D) (idx : Z) (x : Scalar) : Vector2D :=
  if idx =? 0 then {| eigen_vector_2x_ := (x, snd (eigen_vector_2x_ v)) |}
  else {| eigen_vector_2x_ := (fst (eigen_vector_2x_ v), x) |}.

(** [Vector2D(Scalar x, Scalar y)] *)
Definition Vector2D_xy (x y : Scalar) : Vector2D :=
  {| eigen_vector_2x_ := (x, y) |}.

(** [Vector2D(Scalar x)] *)
Definition Vector2D_x (x : Scalar) : Vector2D :=
  {| eigen_vector_2x_ := (x, x) |}.

(** [operator[] (int idx) const] *)
Definition at_ (v : Vector2D) (idx : Z) : Scalar := coeff v idx.

(** The conversion of a scalar to [bool] in [if(norm)]: false for a zero of
    either sign, true for everything else. *)
Definition to_bool (x : Scalar) : bool := negb (s_eqb x s_zero).

(** *** Member functions that return by value

    The two-iteration loops [for(int i = 0; i < 2; ++i)] are written out. *)

Definition op_add (this vec2 : Vector2D) : Vector2D :=
  let result0 := s_add (at_ this 0) (at_ vec2 0) in
  let result1 := s_add (at_ this 1) (at_ vec2 1) in
  Vector2D_xy result0 result1.

Definition op_sub (this vec2 : Vector2D) : Vector2D :=
  let result0 := s_sub (at_ this 0) (at_ vec2 0) in
  let result1 := s_sub (at_ this 1) (at_ vec2 1) in
  Vector2D_xy result0 result1.

Definition op_eq (this vec2 : Vector2D) : bool :=
  if negb (s_eqb (at_ this 0) (at_ vec2 0)) then false
  else if negb (s_eqb (at_ this 1) (at_ vec2 1)) then false
  else true.

Definition op_mul (this : Vector2D) (scale : Scalar) : Vector2D :=
  let result0 := s_mul (at_ this 0) scale in
  let result1 := s_mul (at_ this 1) scale in
  Vector2D_xy result0 result1.

Definition op_div (this : Vector2D) (scale : Scalar) : Vector2D :=
  let result0 := s_div (at_ this 0) scale in
  let result1 := s_div (at_ this 1) scale in
  Vector2D_xy result0 result1.

Definition norm (this : Vector2D) : Scalar :=
  let result := s_add (s_mul (at_ this 0) (at_ this 0))
                      (s_mul (at_ this 1) (at_ this 1)) in
  s_sqrt result.

Definition cross (this vec2 : Vector2D) : Scalar :=
  s_sub (s_mul (at_ this 0) (at_ vec2 1)) (s_mul (at_ this 1) (at_ vec2 0)).

Definition op_neg (this : Vector2D) : Vector2D :=
  Vector2D_xy (s_neg (at_ this 0)) (s_neg (at_ this 1)).

Definition dot (this vec2 : Vector2D) : Scalar :=
  s_add (s_mul (at_ this 0) (at_ vec2 0)) (s_mul (at_ this 1) (at_ vec2 1)).

(** *** Member functions that change the object and return a reference

    Vectors live in a store, at addresses; [this] and the reference
    parameter [vec2] are addresses, which may coincide, and the reference
    returned is an address as well. *)

Definition addr : Type := nat.
Definition store : Type := addr -> Vector2D.

(** The value of [operator[](idx)] on the vector at [p]. *)
Definition load (st : store) (p : addr) (idx : Z) : Scalar := at_ (st p) idx.

(** Assignment of [x] through [operator[](idx)] on the vector at [p]. *)
Definition assign (st : store) (p : addr) (idx : Z) (x : Scalar) : store :=
  fun q => if Nat.eqb q p then set_coeff (st p) idx x else st q.

Definition op_assign (this vec2 : addr) (st : store) : addr * store :=
  let st := assign st this 0 (load st vec2 0) in
  let st := assign st this 1 (load st vec2 1) in
  (this, st).

Definition op_add_assign (this vec2 : addr) (st : store) : addr * store :=
  let st := assign st this 0 (s_add (load st this 0) (load st vec2 0)) in
  let st := assign st this 1 (s_add (load st this 1) (load st vec2 1)) in
  (this, st).

Definition op_sub_assign (this vec2 : addr) (st : store) : addr * store :=
  let st := assign st this 0 (s_sub (load st this 0) (load st vec2 0)) in
  let st := assign st this 1 (s_sub (load st this 1) (load st vec2 1)) in
  (this, st).

Definition op_mul_assign (this : addr) (scale : Scalar) (st : store) : addr * store :=
  let st := assign st this 0 (s_mul (load st this 0) scale) in
  let st := assign st this 1 (s_mul (load st this 1) scale) in
  (this, st).

Definition op_div_assign (this : addr) (scale : Scalar) (st : store) : addr * store :=
  let st := assign st this 0 (s_div (load st this 0) scale) in
  let st := assign st this 1 (s_div (load st this 1) scale) in
  (this, st).

Definition normalize (this : addr) (st : store) : addr * store :=
  let norm := norm (st this) in
  if to_bool norm then
    let st := assign st this 0 (s_div (load st this 0) norm) in
    let st := assign st this 1 (s_div (load st this 1) norm) in
    (this, st)
  else (this, st).

(** [Vector2D(const Vector2D<Scalar> &vec2)]: the object under construction
    is at [this], whose cells hold whatever the store had there. *)
Definition Vector2D_copy (this vec2 : addr) (st : store) : store :=
  snd (op_assign this vec2 st).

End Vector2D.

Arguments Vector2D Scalar : clear implicits.
Arguments store Scalar : clear implicits.

(** ** Vocabulary of the specification

    These follow the words of the specification, not the code. *)

Definition Zsum (l : list Z) : Z := fold_right Z.add 0 l.

(** The starting offset of element [e]: the sum of the vertex counts of the
    elements [0 .. e-1]. *)
Definition prefix_sum (counts : list Z) (e : Z) : Z :=
  Zsum (firstn (Z.to_nat e) counts).

(** The [Dim] scalars [V[Dim*i .. Dim*i+Dim-1]]. *)
Definition coordinates {Scalar : Type} (Dim : Z) (V : list Scalar) (i : Z)
    : list Scalar :=
  firstn (Z.to_nat Dim) (skipn (Z.to_nat (Dim * i)) V).

(** The vertex index that [eleVertPos] hands to [vertPos]: the value of its
    local variable [global_vert_idx]. *)
Definition global_vert_idx {Scalar : Type} (m : VolumetricMesh Scalar)
    (ele_idx vert_idx : Z) : outcome Z :=
  start <- ele_idx_start m ele_idx vert_idx ;;
  off <- int_add start vert_idx ;;
  array_get (elements_ m) off.

(** The caller's arrays are large enough for the uniform constructor: the
    sizes it computes are [int] values, not negative, and within the arrays. *)
Definition fits_uniform {Scalar : Type} (Dim vn : Z) (V : list Scalar) (en : Z)
    (E : list Z) (k : Z) : Prop :=
  (0 <= vn * Dim <= INT_MAX /\ vn * Dim <= Z.of_nat (List.length V)) /\
  (0 <= en * k <= INT_MAX /\ en * k <= Z.of_nat (List.length E)).

(** The same for the ragged constructor, whose vertex counts are not
    negative. *)
Definition fits_ragged {Scalar : Type} (Dim vn : Z) (V : list Scalar) (en : Z)
    (E vpe : list Z) : Prop :=
  (0 <= vn * Dim <= INT_MAX /\ vn * Dim <= Z.of_nat (List.length V)) /\
  0 <= en <= Z.of_nat (List.length vpe) /\
  Forall (fun c => 0 <= c) (firstn (Z.to_nat en) vpe) /\
  (prefix_sum vpe en <= INT_MAX /\ prefix_sum vpe en <= Z.of_nat (List.length E)).

(** An initialized mesh: what one of the two constructors returned. *)
Definition initialized {Scalar : Type} (Dim : Z) (m : VolumetricMesh Scalar) : Prop :=
  exists (vn : Z) (V : list Scalar) (en : Z) (E : list Z),
    (exists k, VolumetricMesh_uniform Dim vn V en E k = Ok m) \/
    (exists vpe, VolumetricMesh_ragged Dim vn V en E vpe = Ok m).

(** ** Example meshes *)

(** One triangle over three vertices in the plane whose last connectivity
    entry, 7, names no vertex. *)
Definition dangling_mesh : outcome (VolumetricMesh double) :=
  VolumetricMesh_uniform 2 3 [0; 0; 1; 0; 0; 1]%float 1 [0; 1; 7] 3.

(** A ragged mesh without vertices or elements. *)
Definition empty_ragged_mesh : outcome (VolumetricMesh double) :=
  VolumetricMesh_ragged 2 0 [] 0 [] [].

(** A ragged mesh of one triangle. *)
Definition one_triangle_mesh : outcome (VolumetricMesh double) :=
  VolumetricMesh_ragged 2 3 [0; 0; 1; 0; 0; 1]%float 1 [0; 1; 2] [3].

(** Two triangles over the unit square, uniform. *)
Definition square_mesh : outcome (VolumetricMesh double) :=
  VolumetricMesh_uniform 2 4 [0; 0; 1; 0; 0; 1; 1; 1]%float 2 [0; 1; 2; 1; 3; 2] 3.

(** A triangle and a quadrilateral over seven vertices on a line, ragged. *)
Definition triangle_quad_mesh : outcome (VolumetricMesh double) :=
  VolumetricMesh_ragged 1 7 [10; 11; 12; 13; 14; 15; 16]%float 2
    [0; 1; 2; 3; 4; 5; 6] [3; 4].

(** ** IEEE 754 scalars

    What the properties of [Vector2D] use of the scalar type: its sum, its
    negation and its comparison are those of IEEE 754 on the values that
    [to_SF] gives, [s_zero] is the positive zero, and a scalar is determined
    by its IEEE value. *)
Record IEEE_scalar (Scalar : Type) (ops : ScalarOps Scalar) : Prop := {
  add_SF : forall x y : Scalar,
    to_SF (s_add x y) = SFadd s_prec s_emax (to_SF x) (to_SF y);
  neg_SF : forall x : Scalar, to_SF (s_neg x) = SFopp (to_SF x);
  eqb_SF : forall x y : Scalar, s_eqb x y = SFeqb (to_SF x) (to_SF y);
  zero_SF : to_SF s_zero = S754_zero false;
  to_SF_inj : forall x y : Scalar, to_SF x = to_SF y -> x = y
}.

(** A scalar that is a zero of either sign. *)
Definition is_zero {Scalar : Type} `{ScalarOps Scalar} (x : Scalar) : bool :=
  match to_SF x with
  | S754_zero _ => true
  | _ => false
  end.

(** ** Example vectors *)

Definition vec (x y : double) : Vector2D double := Vector2D_xy x y.
Arguments vec (x y)%_float.

(** A store with the vector [v] at address 0 and [w] everywhere else. *)
Definition store_of (v w : Vector2D double) : store double :=
  fun p => match p with
           | O => v
           | S _ => w
           end.

(** The power of two from which the scalar type no longer holds every
    integer: [2^24] and [2^53], with the same in the negative. *)
Definition big (i : instantiation) : scalar_of i :=
  match i with
  | Vector2D_float => S754_finite false 8388608 1
  | Vector2D_double => 9007199254740992%float
  end.

Definition neg_big (i : instantiation) : scalar_of i :=
  match i with
  | Vector2D_float => S754_finite true 8388608 1
  | Vector2D_double => (-9007199254740992)%float
  end.

(** ** Well-formed meshes *)

(** Every cell of the connectivity buffer names a vertex, and no vertex count
    is negative. *)
Definition valid_connectivity {Scalar : Type} (m : VolumetricMesh Scalar) : Prop :=
  Forall (fun g => 0 <= g < vert_num_ m) (elements_ m) /\
  Forall (fun c => 0 <= c) (vert_per_ele_ m).

(** A pentagon and a segment over five vertices in the plane, ragged. *)
Definition pentagon_segment_mesh : outcome (VolumetricMesh double) :=
  VolumetricMesh_ragged 2 5 [0; 0; 2; 0; 3; 2; 1; 3; -1; 2]%float 2
    [0; 1; 2; 3; 4; 4; 0] [5; 2].

(** ** More of IEEE 754

    The difference, the product, the quotient and the square root of the
    scalar type are those of IEEE 754 on the values that [to_SF] gives. *)
Record IEEE_arith (Scalar : Type) (ops : ScalarOps Scalar) : Prop := {
  sub_SF : forall x y : Scalar,
    to_SF (s_sub x y) = SFsub s_prec s_emax (to_SF x) (to_SF y);
  mul_SF : forall x y : Scalar,
    to_SF (s_mul x y) = SFmul s_prec s_emax (to_SF x) (to_SF y);
  div_SF : forall x y : Scalar,
    to_SF (s_div x y) = SFdiv s_prec s_emax (to_SF x) (to_SF y);
  sqrt_SF : forall x : Scalar,
    to_SF (s_sqrt x) = SFsqrt s_prec s_emax (to_SF x)
}.

(** The sign bit of an IEEE value is clear, or the value is a NaN. *)
Definition SFnonneg (x : spec_float) : bool :=
  match x with
  | S754_zero s | S754_infinity s | S754_finite s _ _ => negb s
  | S754_nan => true
  end.

(** A scalar with the sign bit set: a negative number, a negative zero or a
    negative infinity. *)
Definition is_negative {Scalar : Type} `{ScalarOps Scalar} (x : Scalar) : bool :=
  negb (SFnonneg (to_SF x)).

(** The zero vector [(0, 0)]. *)
Definition zero_vector {Scalar : Type} `{ScalarOps Scalar} : Vector2D Scalar :=
  Vector2D_xy s_zero s_zero.

(** * Properties *)

(** ** Outcomes, [int] and arrays *)

Lemma bind_Ok {A B : Type} (c : outcome A) (k : A -> outcome B) (b : B) :
  bind c k = Ok b <-> exists a, c = Ok a /\ k a = Ok b.
Proof.
  destruct c as [a | msg | ]; simpl; split.
  - intros E. exists a. split; [reflexivity | exact E].
  - intros (a' & E & K). injection E as ->. exact K.
  - discriminate.
  - intros (a' & E & _). discriminate.
  - discriminate.
  - intros (a' & E & _). discriminate.
Qed.

Lemma to_int_Ok (z r : Z) :
  to_int z = Ok r <-> r = z /\ INT_MIN <= z <= INT_MAX.
Proof.
  unfold to_int, in_int.
  destruct (INT_MIN <=? z) eqn:E1; destruct (z <=? INT_MAX) eqn:E2; simpl; split;
    intros E; try discriminate; try lia.
  - injection E as <-. split; [reflexivity | lia].
  - destruct E as [-> _]. reflexivity.
Qed.

Lemma to_int_in_range (z : Z) :
  INT_MIN <= z <= INT_MAX -> to_int z = Ok z.
Proof. intros R. apply to_int_Ok. split; [reflexivity | exact R]. Qed.

Lemma to_int_not_exit (z : Z) (msg : string) : to_int z <> Exit msg.
Proof. unfold to_int. destruct (in_int z); discriminate. Qed.

Lemma array_get_Ok {A : Type} (a : list A) (i : Z) (x : A) :
  array_get a i = Ok x <-> 0 <= i /\ nth_error a (Z.to_nat i) = Some x.
Proof.
  unfold array_get. destruct (i <? 0) eqn:E.
  - split; [discriminate | lia].
  - destruct (nth_error a (Z.to_nat i)) as [y | ].
    + split; [intros E'; injection E' as ->; split; [lia | reflexivity]
             | intros [_ E']; injection E' as ->; reflexivity].
    + split; [discriminate | intros [_ E']; discriminate].
Qed.

Lemma array_get_not_exit {A : Type} (a : list A) (i : Z) (msg : string) :
  array_get a i <> Exit msg.
Proof.
  unfold array_get. destruct (i <? 0); [discriminate | ].
  destruct (nth_error a (Z.to_nat i)); discriminate.
Qed.

Lemma array_get_outside {A : Type} (a : list A) (i : Z) :
  i < 0 \/ Z.of_nat (List.length a) <= i -> array_get a i = Undef.
Proof.
  intros R. unfold array_get. destruct (i <? 0) eqn:E; [reflexivity | ].
  assert (N : nth_error a (Z.to_nat i) = None) by (apply nth_error_None; lia).
  rewrite N. reflexivity.
Qed.

Lemma array_get_inside {A : Type} (a : list A) (i : Z) :
  0 <= i < Z.of_nat (List.length a) -> exists x, array_get a i = Ok x.
Proof.
  intros R. destruct (nth_error a (Z.to_nat i)) as [x | ] eqn:E.
  - exists x. apply array_get_Ok. split; [lia | exact E].
  - apply nth_error_None in E. lia.
Qed.

Lemma array_get_firstn {A : Type} (a : list A) (n i : Z) :
  i < n -> array_get (firstn (Z.to_nat n) a) i = array_get a i.
Proof.
  intros R. unfold array_get. destruct (i <? 0) eqn:E; [reflexivity | ].
  rewrite nth_error_firstn.
  assert (L : (Z.to_nat i <? Z.to_nat n)%nat = true) by (apply Nat.ltb_lt; lia).
  rewrite L. reflexivity.
Qed.

Lemma new_copy_Ok {A : Type} (src : list A) (n : Z) (dst : list A) :
  new_copy src n = Ok dst <->
  0 <= n <= Z.of_nat (List.length src) /\ dst = firstn (Z.to_nat n) src.
Proof.
  unfold new_copy. destruct (n <? 0) eqn:E1.
  - split; [discriminate | lia].
  - destruct (Z.of_nat (List.length src) <? n) eqn:E2.
    + split; [discriminate | lia].
    + split; [intros E; injection E as <-; split; [lia | reflexivity]
             | intros [_ ->]; reflexivity].
Qed.

Lemma new_copy_length {A : Type} (src : list A) (n : Z) (dst : list A) :
  new_copy src n = Ok dst -> Z.of_nat (List.length dst) = n.
Proof.
  intros E. apply new_copy_Ok in E. destruct E as [R ->].
  rewrite length_firstn. lia.
Qed.

Lemma new_copy_not_exit {A : Type} (src : list A) (n : Z) (msg : string) :
  new_copy src n <> Exit msg.
Proof.
  unfold new_copy. destruct (n <? 0); [discriminate | ].
  destruct (Z.of_nat (List.length src) <? n); discriminate.
Qed.

Lemma skipn_nth_error {A : Type} (l : list A) (k : nat) (x : A) :
  nth_error l k = Some x -> skipn k l = x :: skipn (S k) l.
Proof.
  revert l. induction k as [ | k IH]; intros [ | y l] E; simpl in E; try discriminate.
  - injection E as ->. reflexivity.
  - simpl. rewrite (IH l E). reflexivity.
Qed.

Lemma Zsum_app (l1 l2 : list Z) : Zsum (l1 ++ l2) = Zsum l1 + Zsum l2.
Proof.
  induction l1 as [ | x l1 IH]; simpl; [reflexivity | ].
  unfold Zsum in *. simpl. rewrite IH. lia.
Qed.

Lemma Zsum_nonneg (l : list Z) : Forall (fun c => 0 <= c) l -> 0 <= Zsum l.
Proof.
  induction 1 as [ | x l Hx _ IH]; unfold Zsum in *; simpl; lia.
Qed.

Lemma Zsum_repeat (k : Z) (n : nat) : Zsum (repeat k n) = Z.of_nat n * k.
Proof.
  induction n as [ | n IH]; [reflexivity | ].
  unfold Zsum in *. simpl repeat. simpl fold_right. rewrite IH. lia.
Qed.

(** ** The accumulation loop *)

Lemma sum_loop_app (a : list Z) (n1 n2 : nat) (i acc : Z) :
  sum_loop a i (n1 + n2) acc =
  (t <- sum_loop a i n1 acc ;; sum_loop a (i + Z.of_nat n1) n2 t).
Proof.
  revert i acc. induction n1 as [ | n1 IH]; intros i acc.
  - simpl. replace (i + 0) with i by lia. reflexivity.
  - simpl sum_loop. destruct (array_get a i) as [c | msg | ]; simpl; try reflexivity.
    destruct (int_add acc c) as [acc' | msg | ]; simpl; try reflexivity.
    rewrite IH. replace (i + 1 + Z.of_nat n1) with (i + Z.of_nat (S n1)) by lia.
    reflexivity.
Qed.

Lemma sum_loop_Ok (a : list Z) (n : nat) (i acc t : Z) :
  0 <= i ->
  sum_loop a i n acc = Ok t ->
  t = acc + Zsum (firstn n (skipn (Z.to_nat i) a)) /\
  (n <> 0%nat ->
   i + Z.of_nat n <= Z.of_nat (List.length a) /\ INT_MIN <= t <= INT_MAX).
Proof.
  revert i acc. induction n as [ | n IH]; intros i acc Hi E.
  - cbn [sum_loop] in E. injection E as <-. cbn [firstn]. unfold Zsum. cbn [fold_right].
    split; [lia | ]. intros N. exfalso. apply N. reflexivity.
  - cbn [sum_loop] in E. apply bind_Ok in E. destruct E as (c & Ec & E).
    apply bind_Ok in E. destruct E as (acc' & Ea & E).
    apply array_get_Ok in Ec. destruct Ec as [_ Ec].
    apply to_int_Ok in Ea. destruct Ea as [-> Ra].
    assert (L : (Z.to_nat i < List.length a)%nat)
      by (apply nth_error_Some; rewrite Ec; discriminate).
    destruct (IH (i + 1) (acc + c) ltac:(lia) E) as (-> & Hr). clear IH E.
    rewrite (skipn_nth_error _ _ _ Ec). cbn [firstn].
    replace (Z.to_nat (i + 1)) with (S (Z.to_nat i)) in * by lia.
    change (Zsum (c :: ?l)) with (c + Zsum l).
    split; [lia | ]. intros _.
    destruct n as [ | n].
    + cbn [firstn]. unfold Zsum. cbn [fold_right]. lia.
    + destruct Hr as [Hl Hr]; [discriminate | ]. lia.
Qed.

Lemma sum_loop_nonneg (a : list Z) (n : nat) (i acc : Z) :
  0 <= i ->
  i + Z.of_nat n <= Z.of_nat (List.length a) ->
  Forall (fun c => 0 <= c) (firstn n (skipn (Z.to_nat i) a)) ->
  INT_MIN <= acc ->
  acc + Zsum (firstn n (skipn (Z.to_nat i) a)) <= INT_MAX ->
  sum_loop a i n acc = Ok (acc + Zsum (firstn n (skipn (Z.to_nat i) a))).
Proof.
  revert i acc. induction n as [ | n IH]; intros i acc Hi Hl Hc Ha Hs.
  - cbn [sum_loop firstn]. unfold Zsum. cbn [fold_right]. f_equal. lia.
  - destruct (nth_error a (Z.to_nat i)) as [c | ] eqn:Ec;
      [ | apply nth_error_None in Ec; lia].
    rewrite (skipn_nth_error _ _ _ Ec) in *. cbn [firstn] in *.
    change (Zsum (c :: ?l)) with (c + Zsum l) in *.
    apply Forall_cons_iff in Hc. destruct Hc as [Hc0 Hc'].
    pose proof (Zsum_nonneg _ Hc') as Hz.
    cbn [sum_loop].
    assert (Eg : array_get a i = Ok c) by (apply array_get_Ok; split; [lia | exact Ec]).
    rewrite Eg. cbn [bind]. unfold int_add.
    rewrite to_int_in_range by lia. cbn [bind].
    replace (S (Z.to_nat i)) with (Z.to_nat (i + 1)) in * by lia.
    rewrite IH; try lia; try assumption.
    f_equal. lia.
Qed.

(** [sum_loop] over the first [e] cells is the prefix sum, once the loop over
    more cells has run to its end. *)
Lemma sum_loop_prefix (a : list Z) (n e : nat) (total : Z) :
  sum_loop a 0 n 0 = Ok total ->
  (e <= n)%nat ->
  sum_loop a 0 e 0 = Ok (Zsum (firstn e a)) /\
  (e <> 0%nat -> INT_MIN <= Zsum (firstn e a) <= INT_MAX).
Proof.
  intros E Le.
  replace n with (e + (n - e))%nat in E by lia.
  rewrite sum_loop_app in E. apply bind_Ok in E. destruct E as (t & Et & _).
  destruct (sum_loop_Ok _ _ _ _ _ (Z.le_refl 0) Et) as [-> Hr].
  change (Z.to_nat 0) with 0%nat in *. cbn [skipn] in *.
  replace (0 + Zsum (firstn e a)) with (Zsum (firstn e a)) in * by lia.
  split; [exact Et | ]. intros Ne. apply Hr. exact Ne.
Qed.

Lemma int_bounds : INT_MIN = -2147483648 /\ INT_MAX = 2147483647.
Proof. split; reflexivity. Qed.

Ltac int_lia := pose proof int_bounds; lia.

(** ** Construction *)

Section Construction.

Variable Scalar : Type.
Variable Dim : Z.

(** What [init] leaves in the object when it returns. *)
Lemma init_inv (vn : Z) (V : list Scalar) (en : Z) (E vpe : list Z) (u : bool)
    (m : VolumetricMesh Scalar) :
  init Dim vn V en E vpe u = Ok m ->
  vert_num_ m = vn /\ ele_num_ m = en /\ uniform_ele_type_ m = u /\
  (0 <= vn * Dim <= INT_MAX /\ vn * Dim <= Z.of_nat (List.length V)) /\
  vertices_ m = firstn (Z.to_nat (vn * Dim)) V /\
  exists total,
    (0 <= total <= INT_MAX /\ total <= Z.of_nat (List.length E)) /\
    elements_ m = firstn (Z.to_nat total) E /\
    if u then
      exists k, nth_error vpe 0 = Some k /\ vert_per_ele_ m = [k] /\ total = en * k
    else
      0 <= en <= Z.of_nat (List.length vpe) /\
      vert_per_ele_ m = firstn (Z.to_nat en) vpe /\
      sum_loop (vert_per_ele_ m) 0 (Z.to_nat en) 0 = Ok total.
Proof.
  unfold init. intros H.
  apply bind_Ok in H. destruct H as (n & Hn & H).
  apply bind_Ok in H. destruct H as (vs & Hvs & H).
  apply bind_Ok in H. destruct H as ([cnt total] & Hct & H).
  apply bind_Ok in H. destruct H as (es & Hes & H).
  injection H as <-. cbn [vert_num_ ele_num_ uniform_ele_type_ vertices_
                          elements_ vert_per_ele_ fst snd] in *.
  apply to_int_Ok in Hn. destruct Hn as [-> Rn].
  apply new_copy_Ok in Hvs. destruct Hvs as [Rv ->].
  apply new_copy_Ok in Hes. destruct Hes as [Re ->].
  repeat (split; [reflexivity || lia | ]).
  exists total.
  destruct u.
  - apply bind_Ok in Hct. destruct Hct as (k & Hk & Hct).
    apply bind_Ok in Hct. destruct Hct as (t & Ht & Hct).
    injection Hct as <- <-.
    apply array_get_Ok in Hk. destruct Hk as [_ Hk].
    apply to_int_Ok in Ht. destruct Ht as [-> Rt].
    repeat (split; [reflexivity || lia | ]).
    exists k. repeat split; assumption || reflexivity.
  - apply bind_Ok in Hct. destruct Hct as (c & Hc & Hct).
    apply bind_Ok in Hct. destruct Hct as (t & Ht & Hct).
    injection Hct as <- <-.
    apply new_copy_Ok in Hc. destruct Hc as [Rc ->].
    assert (Rt : t <= INT_MAX).
    { destruct (Z.to_nat en) as [ | n'] eqn:En.
      - cbn [sum_loop] in Ht. injection Ht as <-. int_lia.
      - apply sum_loop_Ok in Ht; [ | lia]. destruct Ht as [_ Ht].
        destruct Ht as [_ Ht]; [discriminate | lia]. }
    repeat (split; [reflexivity || lia || assumption | ]).
    exact Ht.
Qed.

(** The uniform constructor returns as soon as the caller's arrays are
    large enough for the sizes it computes; the contents of the arrays play
    no part. *)
Lemma uniform_returns (vn : Z) (V : list Scalar) (en : Z) (E : list Z) (k : Z) :
  0 <= vn * Dim <= INT_MAX -> vn * Dim <= Z.of_nat (List.length V) ->
  0 <= en * k <= INT_MAX -> en * k <= Z.of_nat (List.length E) ->
  VolumetricMesh_uniform Dim vn V en E k =
  Ok {| vert_num_ := vn; vertices_ := firstn (Z.to_nat (vn * Dim)) V;
        ele_num_ := en; elements_ := firstn (Z.to_nat (en * k)) E;
        vert_per_ele_ := [k]; uniform_ele_type_ := true |}.
Proof.
  intros Rv Lv Re Le. unfold VolumetricMesh_uniform, init, int_mul.
  rewrite to_int_in_range by int_lia. cbn [bind].
  assert (Ev : new_copy V (vn * Dim) = Ok (firstn (Z.to_nat (vn * Dim)) V))
    by (apply new_copy_Ok; split; [lia | reflexivity]).
  rewrite Ev. cbn [bind].
  change (array_get [k] 0) with (Ok k). cbn [bind].
  rewrite to_int_in_range by int_lia. cbn [bind snd fst].
  assert (Ee : new_copy E (en * k) = Ok (firstn (Z.to_nat (en * k)) E))
    by (apply new_copy_Ok; split; [lia | reflexivity]).
  rewrite Ee. reflexivity.
Qed.

(** The same for the ragged constructor, for vertex counts that are not
    negative. *)
Lemma ragged_returns (vn : Z) (V : list Scalar) (en : Z) (E vpe : list Z) :
  0 <= vn * Dim <= INT_MAX -> vn * Dim <= Z.of_nat (List.length V) ->
  0 <= en <= Z.of_nat (List.length vpe) ->
  Forall (fun c => 0 <= c) (firstn (Z.to_nat en) vpe) ->
  prefix_sum vpe en <= INT_MAX ->
  prefix_sum vpe en <= Z.of_nat (List.length E) ->
  VolumetricMesh_ragged Dim vn V en E vpe =
  Ok {| vert_num_ := vn; vertices_ := firstn (Z.to_nat (vn * Dim)) V;
        ele_num_ := en; elements_ := firstn (Z.to_nat (prefix_sum vpe en)) E;
        vert_per_ele_ := firstn (Z.to_nat en) vpe; uniform_ele_type_ := false |}.
Proof.
  intros Rv Lv Rn Hc Rt Lt. unfold VolumetricMesh_ragged, init, int_mul.
  rewrite to_int_in_range by int_lia. cbn [bind].
  assert (Ev : new_copy V (vn * Dim) = Ok (firstn (Z.to_nat (vn * Dim)) V))
    by (apply new_copy_Ok; split; [lia | reflexivity]).
  rewrite Ev. cbn [bind].
  assert (Ec : new_copy vpe en = Ok (firstn (Z.to_nat en) vpe))
    by (apply new_copy_Ok; split; [lia | reflexivity]).
  rewrite Ec. cbn [bind].
  pose proof (Zsum_nonneg _ Hc) as Hz.
  assert (Ff : firstn (Z.to_nat en) (firstn (Z.to_nat en) vpe) = firstn (Z.to_nat en) vpe)
    by (rewrite firstn_firstn, Nat.min_id; reflexivity).
  assert (Es : sum_loop (firstn (Z.to_nat en) vpe) 0 (Z.to_nat en) 0 = Ok (prefix_sum vpe en)).
  { rewrite sum_loop_nonneg.
    - change (Z.to_nat 0) with 0%nat. cbn [skipn]. rewrite Ff. reflexivity.
    - lia.
    - rewrite length_firstn. lia.
    - change (Z.to_nat 0) with 0%nat. cbn [skipn]. rewrite Ff. exact Hc.
    - int_lia.
    - change (Z.to_nat 0) with 0%nat. cbn [skipn]. rewrite Ff.
      unfold prefix_sum in Rt. lia. }
  rewrite Es. cbn [bind snd fst].
  assert (Ee : new_copy E (prefix_sum vpe en) = Ok (firstn (Z.to_nat (prefix_sum vpe en)) E))
    by (apply new_copy_Ok; split; [unfold prefix_sum in *; lia | reflexivity]).
  rewrite Ee. reflexivity.
Qed.

End Construction.

(** ** Prefix sums *)

Lemma prefix_sum_firstn (counts : list Z) (n e : Z) :
  e <= n -> prefix_sum (firstn (Z.to_nat n) counts) e = prefix_sum counts e.
Proof.
  intros Le. unfold prefix_sum. rewrite firstn_firstn.
  replace (Nat.min (Z.to_nat e) (Z.to_nat n)) with (Z.to_nat e) by lia.
  reflexivity.
Qed.

Lemma firstn_snoc {A : Type} (l : list A) (k : nat) (x : A) :
  nth_error l k = Some x -> firstn (S k) l = firstn k l ++ [x].
Proof.
  revert l. induction k as [ | k IH]; intros [ | y l] E; cbn [nth_error] in E;
    try discriminate.
  - injection E as ->. reflexivity.
  - cbn [firstn app]. rewrite <- (IH l E). reflexivity.
Qed.

Lemma prefix_sum_succ (counts : list Z) (e c : Z) :
  0 <= e -> nth_error counts (Z.to_nat e) = Some c ->
  prefix_sum counts (e + 1) = prefix_sum counts e + c.
Proof.
  intros He Ec. unfold prefix_sum.
  replace (Z.to_nat (e + 1)) with (S (Z.to_nat e)) by lia.
  rewrite (firstn_snoc _ _ _ Ec), Zsum_app. unfold Zsum. cbn [fold_right]. lia.
Qed.

Lemma prefix_sum_mono (counts : list Z) (e n : Z) :
  e <= n ->
  Forall (fun c => 0 <= c) (firstn (Z.to_nat n) counts) ->
  prefix_sum counts e <= prefix_sum counts n.
Proof.
  intros Le Hc. unfold prefix_sum.
  rewrite <- (firstn_skipn (Z.to_nat e) (firstn (Z.to_nat n) counts)) in Hc |- * at 1.
  rewrite Zsum_app, firstn_firstn.
  replace (Nat.min (Z.to_nat e) (Z.to_nat n)) with (Z.to_nat e) by lia.
  apply Forall_app in Hc. destruct Hc as [_ Hc].
  pose proof (Zsum_nonneg _ Hc). lia.
Qed.

Lemma prefix_sum_nonneg (counts : list Z) (e n : Z) :
  e <= n ->
  Forall (fun c => 0 <= c) (firstn (Z.to_nat n) counts) ->
  0 <= prefix_sum counts e.
Proof.
  intros Le Hc. unfold prefix_sum. apply Zsum_nonneg.
  rewrite <- (firstn_skipn (Z.to_nat e) (firstn (Z.to_nat n) counts)) in Hc.
  apply Forall_app in Hc. destruct Hc as [Hc _].
  rewrite firstn_firstn in Hc.
  replace (Nat.min (Z.to_nat e) (Z.to_nat n)) with (Z.to_nat e) in Hc by lia.
  exact Hc.
Qed.

Lemma firstn_repeat_le {A : Type} (x : A) (k n : nat) :
  (k <= n)%nat -> firstn k (repeat x n) = repeat x k.
Proof.
  revert n. induction k as [ | k IH]; intros n Le; [reflexivity | ].
  destruct n as [ | n]; [lia | ].
  cbn [repeat firstn]. rewrite IH by lia. reflexivity.
Qed.

Lemma prefix_sum_repeat (k : Z) (n : nat) (e : Z) :
  0 <= e <= Z.of_nat n -> prefix_sum (repeat k n) e = e * k.
Proof.
  intros Re. unfold prefix_sum. rewrite firstn_repeat_le by lia.
  rewrite Zsum_repeat, Z2Nat.id by lia. reflexivity.
Qed.

(** ** Queries *)

Section Queries.

Variable Scalar : Type.
Variable Dim : Z.

Lemma vertPos_outside (m : VolumetricMesh Scalar) (g : Z) :
  g < 0 \/ vert_num_ m <= g -> vertPos Dim m g = Exit msg_vertex.
Proof.
  intros R. unfold vertPos.
  destruct (g <? 0) eqn:E1; [reflexivity | ].
  destruct (g >=? vert_num_ m) eqn:E2; [reflexivity | lia].
Qed.

Lemma vertPos_loop_reads (m : VolumetricMesh Scalar) (idx i0 : Z) (n : nat) :
  0 <= i0 -> 0 <= Dim * idx ->
  Dim * idx + i0 + Z.of_nat n <= Z.of_nat (List.length (vertices_ m)) ->
  Z.of_nat (List.length (vertices_ m)) <= INT_MAX ->
  vertPos_loop Dim m idx i0 n =
  Ok (firstn n (skipn (Z.to_nat (Dim * idx + i0)) (vertices_ m))).
Proof.
  revert i0. induction n as [ | n IH]; intros i0 Hi Hb Hl Hm; [reflexivity | ].
  cbn [vertPos_loop]. unfold int_mul, int_add.
  rewrite to_int_in_range by int_lia. cbn [bind].
  rewrite to_int_in_range by int_lia. cbn [bind].
  destruct (nth_error (vertices_ m) (Z.to_nat (Dim * idx + i0))) as [x | ] eqn:Ex;
    [ | apply nth_error_None in Ex; lia].
  assert (Eg : array_get (vertices_ m) (Dim * idx + i0) = Ok x)
    by (apply array_get_Ok; split; [lia | exact Ex]).
  rewrite Eg. cbn [bind].
  rewrite IH by lia. cbn [bind].
  rewrite (skipn_nth_error _ _ _ Ex). cbn [firstn].
  replace (Z.to_nat (Dim * idx + (i0 + 1))) with (S (Z.to_nat (Dim * idx + i0))) by lia.
  reflexivity.
Qed.

(** Copy fidelity for the vertex buffer. *)
Lemma vertPos_copy (m : VolumetricMesh Scalar) (V : list Scalar) (i : Z) :
  0 <= vert_num_ m * Dim <= INT_MAX ->
  vert_num_ m * Dim <= Z.of_nat (List.length V) ->
  vertices_ m = firstn (Z.to_nat (vert_num_ m * Dim)) V ->
  0 <= i < vert_num_ m ->
  vertPos Dim m i = Ok (coordinates Dim V i).
Proof.
  intros Rn Ln Ev Ri. unfold vertPos, coordinates.
  destruct (i <? 0) eqn:E1; [lia | ].
  destruct (i >=? vert_num_ m) eqn:E2; [lia | ]. cbn [orb].
  destruct (Z.le_gt_cases Dim 0) as [Dn | Dp].
  - replace (Z.to_nat Dim) with 0%nat by lia. reflexivity.
  - assert (Hlen : Z.of_nat (List.length (vertices_ m)) = vert_num_ m * Dim)
      by (rewrite Ev, length_firstn; lia).
    rewrite vertPos_loop_reads by nia.
    replace (Dim * i + 0) with (Dim * i) by lia.
    rewrite Ev, skipn_firstn_comm, firstn_firstn.
    replace (Nat.min (Z.to_nat Dim) (Z.to_nat (vert_num_ m * Dim) - Z.to_nat (Dim * i)))
      with (Z.to_nat Dim) by nia.
    reflexivity.
Qed.

End Queries.

Lemma sum_loop_not_exit (a : list Z) (n : nat) (i acc : Z) (msg : string) :
  sum_loop a i n acc <> Exit msg.
Proof.
  revert i acc. induction n as [ | n IH]; intros i acc; cbn [sum_loop]; [discriminate | ].
  destruct (array_get a i) as [c | msg' | ] eqn:Ec; cbn [bind];
    [ | exfalso; exact (array_get_not_exit _ _ _ Ec) | discriminate].
  unfold int_add. destruct (to_int (acc + c)) as [acc' | msg' | ] eqn:Ea; cbn [bind];
    [ | exfalso; exact (to_int_not_exit _ _ Ea) | discriminate].
  apply IH.
Qed.

Section ElementQueries.

Variable Scalar : Type.
Variable Dim : Z.

Lemma eleVertPos_global (m : VolumetricMesh Scalar) (e l : Z) :
  eleVertPos Dim m e l = (g <- global_vert_idx m e l ;; vertPos Dim m g).
Proof.
  unfold eleVertPos, global_vert_idx.
  destruct (ele_idx_start m e l) as [start | msg | ]; cbn [bind]; try reflexivity.
  destruct (int_add start l) as [off | msg | ]; cbn [bind]; reflexivity.
Qed.

(** The offset read in a uniform mesh. *)
Lemma global_vert_idx_uniform (m : VolumetricMesh Scalar) (k e l : Z) :
  uniform_ele_type_ m = true -> vert_per_ele_ m = [k] ->
  ele_num_ m * k <= INT_MAX ->
  0 <= e < ele_num_ m -> 0 <= l < k ->
  global_vert_idx m e l = array_get (elements_ m) (e * k + l).
Proof.
  intros Hu Hk Rt Re Rl. unfold global_vert_idx, ele_idx_start.
  rewrite Hu, Hk.
  destruct (e <? 0) eqn:E1; [lia | ].
  destruct (e >=? ele_num_ m) eqn:E2; [lia | ]. cbn [orb].
  change (array_get [k] 0) with (Ok k). cbn [bind].
  destruct (l <? 0) eqn:E3; [lia | ].
  destruct (l >=? k) eqn:E4; [lia | ]. cbn [orb].
  unfold int_mul, int_add.
  assert (R1 : 0 <= e * k) by nia.
  assert (R2 : e * k + l < ele_num_ m * k) by nia.
  rewrite to_int_in_range by int_lia. cbn [bind].
  rewrite to_int_in_range by int_lia. cbn [bind].
  reflexivity.
Qed.

(** The offset read in a ragged mesh. *)
Lemma global_vert_idx_ragged (m : VolumetricMesh Scalar) (total e l c : Z) :
  uniform_ele_type_ m = false ->
  sum_loop (vert_per_ele_ m) 0 (Z.to_nat (ele_num_ m)) 0 = Ok total ->
  Z.of_nat (List.length (elements_ m)) <= INT_MAX ->
  0 <= e < ele_num_ m ->
  array_get (vert_per_ele_ m) e = Ok c -> 0 <= l < c ->
  global_vert_idx m e l =
  array_get (elements_ m) (prefix_sum (vert_per_ele_ m) e + l).
Proof.
  intros Hu Hs Rm Re Hc Rl. unfold global_vert_idx, ele_idx_start.
  rewrite Hu, Hc.
  destruct (e <? 0) eqn:E1; [lia | ].
  destruct (e >=? ele_num_ m) eqn:E2; [lia | ]. cbn [orb bind].
  destruct (l <? 0) eqn:E3; [lia | ].
  destruct (l >=? c) eqn:E4; [lia | ]. cbn [orb].
  destruct (sum_loop_prefix _ _ (Z.to_nat e) _ Hs ltac:(lia)) as [Es Rs].
  rewrite Es. cbn [bind]. fold (prefix_sum (vert_per_ele_ m) e).
  assert (R0 : INT_MIN <= prefix_sum (vert_per_ele_ m) e).
  { destruct (Z.to_nat e) as [ | n] eqn:En.
    - unfold prefix_sum. rewrite En. cbn. int_lia.
    - unfold prefix_sum. rewrite En. apply Rs. discriminate. }
  unfold int_add, to_int, in_int.
  destruct (INT_MIN <=? prefix_sum (vert_per_ele_ m) e + l) eqn:E5; [ | lia].
  destruct (prefix_sum (vert_per_ele_ m) e + l <=? INT_MAX) eqn:E6; cbn [andb bind].
  - reflexivity.
  - symmetry. apply array_get_outside. right. lia.
Qed.

End ElementQueries.

(** ** The two constructors, read backwards *)

Section Constructors.

Variable Scalar : Type.
Variable Dim : Z.

Lemma uniform_inv (vn : Z) (V : list Scalar) (en : Z) (E : list Z) (k : Z)
    (m : VolumetricMesh Scalar) :
  VolumetricMesh_uniform Dim vn V en E k = Ok m ->
  fits_uniform Dim vn V en E k /\
  m = {| vert_num_ := vn; vertices_ := firstn (Z.to_nat (vn * Dim)) V;
         ele_num_ := en; elements_ := firstn (Z.to_nat (en * k)) E;
         vert_per_ele_ := [k]; uniform_ele_type_ := true |}.
Proof.
  intros H. unfold VolumetricMesh_uniform in H. apply init_inv in H.
  destruct H as (H1 & H2 & H3 & H4 & H5 & total & H6 & H7 & k' & H8 & H9 & ->).
  cbn [nth_error] in H8. injection H8 as <-.
  split; [unfold fits_uniform; lia | ].
  destruct m; cbn in *; subst; reflexivity.
Qed.

Lemma ragged_inv (vn : Z) (V : list Scalar) (en : Z) (E vpe : list Z)
    (m : VolumetricMesh Scalar) :
  VolumetricMesh_ragged Dim vn V en E vpe = Ok m ->
  ((0 <= vn * Dim <= INT_MAX /\ vn * Dim <= Z.of_nat (List.length V)) /\
   0 <= en <= Z.of_nat (List.length vpe) /\
   (0 <= prefix_sum vpe en <= INT_MAX /\
    prefix_sum vpe en <= Z.of_nat (List.length E))) /\
  sum_loop (firstn (Z.to_nat en) vpe) 0 (Z.to_nat en) 0 = Ok (prefix_sum vpe en) /\
  m = {| vert_num_ := vn; vertices_ := firstn (Z.to_nat (vn * Dim)) V;
         ele_num_ := en; elements_ := firstn (Z.to_nat (prefix_sum vpe en)) E;
         vert_per_ele_ := firstn (Z.to_nat en) vpe; uniform_ele_type_ := false |}.
Proof.
  intros H. unfold VolumetricMesh_ragged in H. apply init_inv in H.
  destruct H as (H1 & H2 & H3 & H4 & H5 & total & H6 & H7 & H8 & H9 & H10).
  rewrite H9 in H10.
  destruct (sum_loop_Ok _ _ _ _ _ (Z.le_refl 0) H10) as [Et _].
  change (Z.to_nat 0) with 0%nat in Et. cbn [skipn] in Et.
  rewrite firstn_firstn, Nat.min_id in Et.
  assert (Et' : total = prefix_sum vpe en) by (unfold prefix_sum; lia).
  subst total.
  split; [lia | ]. split; [exact H10 | ].
  destruct m; cbn in *; subst; reflexivity.
Qed.

End Constructors.

(** ** The connectivity slot of an element *)

Section Slots.

Variable Scalar : Type.
Variable Dim : Z.

(** In a uniform mesh, slot [l] of element [e] is cell [e * k + l] of the
    caller's element array. *)
Lemma slot_uniform (vn : Z) (V : list Scalar) (en : Z) (E : list Z) (k : Z)
    (m : VolumetricMesh Scalar) (e l : Z) :
  VolumetricMesh_uniform Dim vn V en E k = Ok m ->
  0 <= e < en -> 0 <= l < k ->
  exists g, array_get E (e * k + l) = Ok g /\ global_vert_idx m e l = Ok g.
Proof.
  intros H Re Rl. apply uniform_inv in H. destruct H as [F ->].
  unfold fits_uniform in F.
  assert (R : 0 <= e * k + l < en * k) by nia.
  destruct (array_get_inside E (e * k + l) ltac:(lia)) as [g Eg].
  exists g. split; [exact Eg | ].
  rewrite (global_vert_idx_uniform _ _ k)
    by (cbn [ele_num_ uniform_ele_type_ vert_per_ele_]; reflexivity || lia).
  cbn [elements_]. rewrite array_get_firstn by lia. exact Eg.
Qed.

(** In a ragged mesh whose counts are not negative, it is cell
    [prefix_sum vpe e + l]. *)
Lemma slot_ragged (vn : Z) (V : list Scalar) (en : Z) (E vpe : list Z)
    (m : VolumetricMesh Scalar) (e l c : Z) :
  VolumetricMesh_ragged Dim vn V en E vpe = Ok m ->
  Forall (fun c => 0 <= c) (firstn (Z.to_nat en) vpe) ->
  0 <= e < en -> nth_error vpe (Z.to_nat e) = Some c -> 0 <= l < c ->
  exists g, array_get E (prefix_sum vpe e + l) = Ok g /\
            global_vert_idx m e l = Ok g.
Proof.
  intros H Hc Re Ec Rl. apply ragged_inv in H. destruct H as (F & Hs & ->).
  pose proof (prefix_sum_nonneg vpe e en ltac:(lia) Hc) as P0.
  pose proof (prefix_sum_succ vpe e c ltac:(lia) Ec) as P1.
  pose proof (prefix_sum_mono vpe (e + 1) en ltac:(lia) Hc) as P2.
  destruct (array_get_inside E (prefix_sum vpe e + l) ltac:(lia)) as [g Eg].
  exists g. split; [exact Eg | ].
  assert (Ec' : array_get (firstn (Z.to_nat en) vpe) e = Ok c).
  { rewrite array_get_firstn by lia. apply array_get_Ok. split; [lia | exact Ec]. }
  rewrite (global_vert_idx_ragged _ _ (prefix_sum vpe en) e l c);
    cbn [uniform_ele_type_ vert_per_ele_ ele_num_ elements_];
    try reflexivity; try assumption; try lia.
  - rewrite prefix_sum_firstn by lia.
    rewrite array_get_firstn by lia. exact Eg.
  - rewrite length_firstn. lia.
Qed.

End Slots.

(** ** The claims about the mesh *)

(** C1. Mesh round trip. For a mesh built by either constructor from the
    vertex array [V] and the element array [E]: the two buffers of the mesh
    are copies of the leading cells of [V] and [E]; [vertPos(i)], for every [i] in
    [0, vert_num), returns exactly the [Dim] scalars [V[Dim*i .. Dim*i+Dim-1]];
    and [eleVertPos(e, l)], for every element [e] and local index [l] in range,
    is [vertPos] of the index [g] that [E] holds in slot [l] of element [e],
    hence the coordinates of vertex [g] in [V] when [g] is a vertex. The ragged
    layout is the concatenation of the elements' index lists, which supposes
    counts that are not negative. *)
Theorem C1_mesh_round_trip (Scalar : Type) (Dim vn : Z) (V : list Scalar)
    (en : Z) (E : list Z) :
  (forall (k : Z) (m : VolumetricMesh Scalar),
     VolumetricMesh_uniform Dim vn V en E k = Ok m ->
     (vertices_ m = firstn (Z.to_nat (vn * Dim)) V /\
      elements_ m = firstn (Z.to_nat (en * k)) E) /\
     (forall i, 0 <= i < vn -> vertPos Dim m i = Ok (coordinates Dim V i)) /\
     (forall e l, 0 <= e < en -> 0 <= l < k ->
        exists g, array_get E (e * k + l) = Ok g /\
                  eleVertPos Dim m e l = vertPos Dim m g /\
                  (0 <= g < vn ->
                   eleVertPos Dim m e l = Ok (coordinates Dim V g)))) /\
  (forall (vpe : list Z) (m : VolumetricMesh Scalar),
     VolumetricMesh_ragged Dim vn V en E vpe = Ok m ->
     (vertices_ m = firstn (Z.to_nat (vn * Dim)) V /\
      elements_ m = firstn (Z.to_nat (prefix_sum vpe en)) E) /\
     (forall i, 0 <= i < vn -> vertPos Dim m i = Ok (coordinates Dim V i)) /\
     (Forall (fun c => 0 <= c) (firstn (Z.to_nat en) vpe) ->
      forall e l c, 0 <= e < en -> nth_error vpe (Z.to_nat e) = Some c ->
        0 <= l < c ->
        exists g, array_get E (prefix_sum vpe e + l) = Ok g /\
                  eleVertPos Dim m e l = vertPos Dim m g /\
                  (0 <= g < vn ->
                   eleVertPos Dim m e l = Ok (coordinates Dim V g)))).
Proof.
  split.
  - intros k m H.
    assert (HV : forall i, 0 <= i < vn -> vertPos Dim m i = Ok (coordinates Dim V i)).
    { intros i Ri. pose proof (uniform_inv _ _ _ _ _ _ _ _ H) as [F ->].
      unfold fits_uniform in F.
      apply vertPos_copy; cbn [vert_num_ vertices_]; reflexivity || lia. }
    split; [pose proof (uniform_inv _ _ _ _ _ _ _ _ H) as [_ ->]; split; reflexivity | ].
    split; [exact HV | ].
    intros e l Re Rl.
    destruct (slot_uniform _ _ _ _ _ _ _ _ e l H Re Rl) as (g & Eg & Gg).
    exists g. split; [exact Eg | ].
    rewrite eleVertPos_global, Gg. cbn [bind].
    split; [reflexivity | apply HV].
  - intros vpe m H.
    assert (HV : forall i, 0 <= i < vn -> vertPos Dim m i = Ok (coordinates Dim V i)).
    { intros i Ri. pose proof (ragged_inv _ _ _ _ _ _ _ _ H) as (F & _ & ->).
      apply vertPos_copy; cbn [vert_num_ vertices_]; reflexivity || lia. }
    split; [pose proof (ragged_inv _ _ _ _ _ _ _ _ H) as (_ & _ & ->); split; reflexivity | ].
    split; [exact HV | ].
    intros Hc e l c Re Ec Rl.
    destruct (slot_ragged _ _ _ _ _ _ _ _ e l c H Hc Re Ec Rl) as (g & Eg & Gg).
    exists g. split; [exact Eg | ].
    rewrite eleVertPos_global, Gg. cbn [bind].
    split; [reflexivity | apply HV].
Qed.

Section Equivalence.

Variable Scalar : Type.
Variable Dim : Z.

(** [vertPos] looks at the vertex count and the vertex buffer only. *)
Lemma vertPos_loop_ext (m1 m2 : VolumetricMesh Scalar) (idx i0 : Z) (n : nat) :
  vertices_ m1 = vertices_ m2 ->
  vertPos_loop Dim m1 idx i0 n = vertPos_loop Dim m2 idx i0 n.
Proof.
  intros Ev. revert i0. induction n as [ | n IH]; intros i0; [reflexivity | ].
  cbn [vertPos_loop]. rewrite Ev.
  destruct (int_mul Dim idx) as [b | | ]; cbn [bind]; try reflexivity.
  destruct (int_add b i0) as [j | | ]; cbn [bind]; try reflexivity.
  destruct (array_get (vertices_ m2) j) as [x | | ]; cbn [bind]; try reflexivity.
  rewrite IH. reflexivity.
Qed.

Lemma vertPos_ext (m1 m2 : VolumetricMesh Scalar) (i : Z) :
  vert_num_ m1 = vert_num_ m2 -> vertices_ m1 = vertices_ m2 ->
  vertPos Dim m1 i = vertPos Dim m2 i.
Proof.
  intros En Ev. unfold vertPos. rewrite En.
  destruct ((i <? 0) || (i >=? vert_num_ m2)); [reflexivity | ].
  apply vertPos_loop_ext. exact Ev.
Qed.

Lemma Forall_repeat_pos (k : Z) (n j : nat) :
  0 <= k -> Forall (fun c => 0 <= c) (firstn j (repeat k n)).
Proof.
  intros Hk.
  assert (F : Forall (fun c => 0 <= c) (repeat k n)).
  { apply Forall_forall. intros c Hc. apply repeat_spec in Hc. subst c. exact Hk. }
  rewrite <- (firstn_skipn j (repeat k n)) in F.
  apply Forall_app in F. exact (proj1 F).
Qed.

Lemma array_get_repeat (k : Z) (n : nat) (i : Z) :
  0 <= i < Z.of_nat n -> array_get (repeat k n) i = Ok k.
Proof.
  intros Ri. apply array_get_Ok. split; [lia | ].
  apply nth_error_repeat. lia.
Qed.

Lemma ele_idx_start_ragged (m : VolumetricMesh Scalar) (total e l c : Z) :
  uniform_ele_type_ m = false ->
  sum_loop (vert_per_ele_ m) 0 (Z.to_nat (ele_num_ m)) 0 = Ok total ->
  0 <= e < ele_num_ m ->
  array_get (vert_per_ele_ m) e = Ok c -> 0 <= l < c ->
  ele_idx_start m e l = Ok (prefix_sum (vert_per_ele_ m) e).
Proof.
  intros Hu Hs Re Hc Rl. unfold ele_idx_start. rewrite Hu, Hc.
  destruct (e <? 0) eqn:E1; [lia | ].
  destruct (e >=? ele_num_ m) eqn:E2; [lia | ]. cbn [orb bind].
  destruct (l <? 0) eqn:E3; [lia | ].
  destruct (l >=? c) eqn:E4; [lia | ]. cbn [orb].
  destruct (sum_loop_prefix _ _ (Z.to_nat e) _ Hs ltac:(lia)) as [Es _].
  exact Es.
Qed.

End Equivalence.

(** C2. Uniform against ragged. For [k > 0], the uniform constructor with
    [vert_per_ele = k] and the ragged constructor with the list that repeats
    [k] [ele_num] times, on the same arrays, return together or not at all, and
    the two meshes give the same answers to [vertNum], [eleNum], [eleVertNum],
    [vertPos] and [eleVertPos] at all indices in range; they differ in
    [isUniformElementType]. *)
Theorem C2_uniform_ragged_equivalence (Scalar : Type) (Dim vn : Z)
    (V : list Scalar) (en : Z) (E : list Z) (k : Z) :
  0 < k ->
  ((exists mu, VolumetricMesh_uniform Dim vn V en E k = Ok mu) <->
   (exists mr, VolumetricMesh_ragged Dim vn V en E (repeat k (Z.to_nat en)) = Ok mr)) /\
  (forall mu mr : VolumetricMesh Scalar,
     VolumetricMesh_uniform Dim vn V en E k = Ok mu ->
     VolumetricMesh_ragged Dim vn V en E (repeat k (Z.to_nat en)) = Ok mr ->
     vertNum mu = vertNum mr /\
     eleNum mu = eleNum mr /\
     (forall i, 0 <= i < en -> eleVertNum mu i = eleVertNum mr i) /\
     (forall i, 0 <= i < vn -> vertPos Dim mu i = vertPos Dim mr i) /\
     (forall e l, 0 <= e < en -> 0 <= l < k ->
        eleVertPos Dim mu e l = eleVertPos Dim mr e l) /\
     isUniformElementType mu = true /\
     isUniformElementType mr = false).
Proof.
  intros Hk. split.
  - split.
    + intros [mu H]. apply uniform_inv in H. destruct H as [F _].
      unfold fits_uniform in F.
      assert (Hen : 0 <= en) by nia.
      eexists. apply ragged_returns; try lia.
      * rewrite repeat_length. lia.
      * apply Forall_repeat_pos. lia.
      * rewrite prefix_sum_repeat by lia. lia.
      * rewrite prefix_sum_repeat by lia. lia.
    + intros [mr H]. apply ragged_inv in H. destruct H as (F & _ & _).
      rewrite repeat_length in F.
      rewrite prefix_sum_repeat in F by lia.
      eexists. apply uniform_returns; lia.
  - intros mu mr Hu Hr.
    apply uniform_inv in Hu. destruct Hu as [Fu ->].
    apply ragged_inv in Hr. destruct Hr as (Fr & Hs & ->).
    unfold fits_uniform in Fu. rewrite repeat_length in Fr.
    assert (Hen : 0 <= en) by lia.
    rewrite firstn_repeat_le in * by lia.
    rewrite prefix_sum_repeat in * by lia.
    unfold vertNum, eleNum, isUniformElementType.
    cbn [vert_num_ ele_num_ uniform_ele_type_].
    repeat split.
    + intros i Ri. unfold eleVertNum. cbn [uniform_ele_type_ vert_per_ele_].
      rewrite array_get_repeat by lia. reflexivity.
    + intros i _. apply vertPos_ext; reflexivity.
    + intros e l Re Rl. rewrite !eleVertPos_global.
      rewrite (global_vert_idx_uniform _ _ k)
        by (cbn [ele_num_ uniform_ele_type_ vert_per_ele_]; reflexivity || lia).
      rewrite (global_vert_idx_ragged _ _ (en * k) e l k);
        cbn [uniform_ele_type_ vert_per_ele_ ele_num_ elements_];
        try reflexivity; try assumption; try lia.
      * rewrite prefix_sum_repeat by lia.
        destruct (array_get (firstn (Z.to_nat (en * k)) E) (e * k + l)) as [g | | ];
          cbn [bind]; try reflexivity.
        apply vertPos_ext; reflexivity.
      * rewrite length_firstn. lia.
      * apply array_get_repeat. lia.
Qed.

(** C3. Ragged offsets. In a ragged mesh, for every element [e] and local
    index [l] in range, [eleVertPos(e, l)] computes the start offset
    [vert_per_ele_[0] + ... + vert_per_ele_[e-1]] and reads the connectivity
    buffer at that offset plus [l]; with the counts [3, 4], [eleVertPos(1, 0)]
    reads offset 3. *)
Theorem C3_ragged_offset (Scalar : Type) (Dim vn : Z) (V : list Scalar)
    (en : Z) (E vpe : list Z) (m : VolumetricMesh Scalar) :
  VolumetricMesh_ragged Dim vn V en E vpe = Ok m ->
  (forall e l c, 0 <= e < eleNum m -> eleVertNum m e = Ok c -> 0 <= l < c ->
     ele_idx_start m e l = Ok (prefix_sum (vert_per_ele_ m) e) /\
     eleVertPos Dim m e l =
     (g <- array_get (elements_ m) (prefix_sum (vert_per_ele_ m) e + l) ;;
      vertPos Dim m g)) /\
  (en = 2 -> firstn 2 vpe = [3; 4] ->
     ele_idx_start m 1 0 = Ok 3 /\
     eleVertPos Dim m 1 0 = (g <- array_get E 3 ;; vertPos Dim m g)).
Proof.
  intros H.
  pose proof (ragged_inv _ _ _ _ _ _ _ _ H) as (F & Hs & Em).
  assert (G : forall e l c, 0 <= e < eleNum m -> eleVertNum m e = Ok c -> 0 <= l < c ->
     ele_idx_start m e l = Ok (prefix_sum (vert_per_ele_ m) e) /\
     eleVertPos Dim m e l =
     (g <- array_get (elements_ m) (prefix_sum (vert_per_ele_ m) e + l) ;;
      vertPos Dim m g)).
  { intros e l c Re Ec Rl. unfold eleNum, eleVertNum in *.
    assert (Hu : uniform_ele_type_ m = false) by (rewrite Em; reflexivity).
    rewrite Hu in Ec.
    assert (Hs' : sum_loop (vert_per_ele_ m) 0 (Z.to_nat (ele_num_ m)) 0 =
                  Ok (prefix_sum vpe en)) by (rewrite Em; exact Hs).
    split.
    - exact (ele_idx_start_ragged _ m _ e l c Hu Hs' Re Ec Rl).
    - rewrite eleVertPos_global.
      rewrite (global_vert_idx_ragged _ m _ e l c Hu Hs'); try assumption.
      + reflexivity.
      + rewrite Em. cbn [elements_]. rewrite length_firstn. lia. }
  split; [exact G | ].
  intros -> Hv. change 2%nat with (Z.to_nat 2) in Hv.
  assert (Evpe : vert_per_ele_ m = [3; 4]) by (rewrite Em; exact Hv).
  assert (Ps : prefix_sum vpe 2 = 7) 
    by (unfold prefix_sum; rewrite Hv; reflexivity).
  destruct (G 1 0 4) as [G1 G2].
  - unfold eleNum. rewrite Em. cbn [ele_num_]. lia.
  - unfold eleVertNum. rewrite Em. cbn [uniform_ele_type_ vert_per_ele_].
    rewrite Hv. reflexivity.
  - lia.
  - rewrite Evpe in G1, G2.
    split; [exact G1 | ].
    rewrite G2. change (prefix_sum [3; 4] 1 + 0) with 3.
    rewrite Em. cbn [elements_]. rewrite Ps.
    rewrite array_get_firstn by lia. reflexivity.
Qed.

Section Bounds.

Variable Scalar : Type.
Variable Dim : Z.

(** With both indices in range, nothing before the call of [vertPos] takes
    the fatal path. *)
Lemma global_vert_idx_not_exit (m : VolumetricMesh Scalar) (e l c : Z) :
  0 <= e < eleNum m -> eleVertNum m e = Ok c -> 0 <= l < c ->
  is_exit (global_vert_idx m e l) = false.
Proof.
  unfold eleNum, eleVertNum, global_vert_idx, ele_idx_start.
  intros Re Ec Rl.
  destruct (e <? 0) eqn:E1; [lia | ].
  destruct (e >=? ele_num_ m) eqn:E2; [lia | ]. cbn [orb].
  assert (T : forall s : outcome Z, is_exit s = false ->
              is_exit (start <- s ;; off <- int_add start l ;;
                       array_get (elements_ m) off) = false).
  { intros [start | msg | ] Hs; cbn [bind]; try assumption.
    unfold int_add. destruct (to_int (start + l)) as [off | msg | ] eqn:Eo;
      cbn [bind]; try reflexivity.
    - destruct (array_get (elements_ m) off) as [g | msg | ] eqn:Eg; try reflexivity.
      exfalso. exact (array_get_not_exit _ _ _ Eg).
    - exfalso. exact (to_int_not_exit _ _ Eo). }
  destruct (uniform_ele_type_ m); rewrite Ec; cbn [bind];
    (destruct (l <? 0) eqn:E3; [lia | ]);
    (destruct (l >=? c) eqn:E4; [lia | ]); cbn [orb]; apply T.
  - unfold int_mul. destruct (to_int (e * c)) as [s | msg | ] eqn:Es; try reflexivity.
    exfalso. exact (to_int_not_exit _ _ Es).
  - destruct (sum_loop (vert_per_ele_ m) 0 (Z.to_nat e) 0) as [s | msg | ] eqn:Es;
      try reflexivity.
    exfalso. exact (sum_loop_not_exit _ _ _ _ _ Es).
Qed.

Lemma eleVertPos_element_outside (m : VolumetricMesh Scalar) (e l : Z) :
  e < 0 \/ ele_num_ m <= e -> eleVertPos Dim m e l = Exit msg_element.
Proof.
  intros R. unfold eleVertPos, ele_idx_start.
  destruct (e <? 0) eqn:E1; [reflexivity | ].
  destruct (e >=? ele_num_ m) eqn:E2; [reflexivity | lia].
Qed.

(** [eleVertPos(0, eleVertNum(0))] once [eleVertNum(0)] has returned [k]. *)
Lemma eleVertPos_local_outside (m : VolumetricMesh Scalar) (k : Z) :
  eleVertNum m 0 = Ok k ->
  eleVertPos Dim m 0 k =
  Exit (if 0 >=? ele_num_ m then msg_element else msg_local).
Proof.
  unfold eleVertNum, eleVertPos, ele_idx_start. intros Ek.
  change (0 <? 0) with false. cbn [orb].
  destruct (0 >=? ele_num_ m); [reflexivity | ].
  destruct (uniform_ele_type_ m); rewrite Ek; cbn [bind];
    (destruct (k <? 0); [reflexivity | ]);
    (destruct (k >=? k) eqn:E; [reflexivity | lia]).
Qed.

Lemma eleVertNum_first (m : VolumetricMesh Scalar) :
  initialized Dim m -> uniform_ele_type_ m = true \/ 0 < ele_num_ m ->
  exists k, eleVertNum m 0 = Ok k.
Proof.
  intros (vn & V & en & E & [[k H] | [vpe H]]) R.
  - apply uniform_inv in H. destruct H as [_ ->]. exists k. reflexivity.
  - apply ragged_inv in H. destruct H as (F & _ & ->).
    cbn [uniform_ele_type_ ele_num_] in R.
    destruct R as [R | R]; [discriminate | ].
    unfold eleVertNum. cbn [uniform_ele_type_ vert_per_ele_].
    apply array_get_inside. rewrite length_firstn. lia.
Qed.

Lemma vertPos_returns (m : VolumetricMesh Scalar) (i : Z) :
  initialized Dim m -> 0 <= i < vert_num_ m ->
  exists pos, vertPos Dim m i = Ok pos.
Proof.
  intros (vn & V & en & E & [[k H] | [vpe H]]) Ri.
  - apply uniform_inv in H. destruct H as [F ->]. unfold fits_uniform in F.
    eexists. apply (vertPos_copy _ _ _ V); cbn [vert_num_ vertices_] in *;
      reflexivity || lia.
  - apply ragged_inv in H. destruct H as (F & _ & ->).
    eexists. apply (vertPos_copy _ _ _ V); cbn [vert_num_ vertices_] in *;
      reflexivity || lia.
Qed.

End Bounds.

(** C5, as the code has it. In a uniform mesh [eleVertNum(ele_idx)] returns
    the shared count for any [ele_idx] whatever. In a ragged mesh it returns
    [vert_per_ele_[ele_idx]] for [ele_idx] in [0, eleNum()); outside that range
    it reads outside the count array, with no check, no diagnostic and no
    exit. *)
Theorem C5_eleVertNum (Scalar : Type) (Dim vn : Z) (V : list Scalar) (en : Z)
    (E : list Z) :
  (forall (k : Z) (m : VolumetricMesh Scalar),
     VolumetricMesh_uniform Dim vn V en E k = Ok m ->
     forall ele_idx, eleVertNum m ele_idx = Ok k) /\
  (forall (vpe : list Z) (m : VolumetricMesh Scalar),
     VolumetricMesh_ragged Dim vn V en E vpe = Ok m ->
     (forall ele_idx, 0 <= ele_idx < eleNum m ->
        exists c, nth_error vpe (Z.to_nat ele_idx) = Some c /\
                  nth_error (vert_per_ele_ m) (Z.to_nat ele_idx) = Some c /\
                  eleVertNum m ele_idx = Ok c) /\
     (forall ele_idx, ele_idx < 0 \/ eleNum m <= ele_idx ->
        eleVertNum m ele_idx = Undef)).
Proof.
  split.
  - intros k m H ele_idx. apply uniform_inv in H. destruct H as [_ ->]. reflexivity.
  - intros vpe m H. apply ragged_inv in H. destruct H as (F & _ & ->).
    unfold eleNum, eleVertNum. cbn [ele_num_ uniform_ele_type_ vert_per_ele_].
    split.
    + intros i Ri.
      destruct (array_get_inside (firstn (Z.to_nat en) vpe) i) as [c Ec];
        [rewrite length_firstn; lia | ].
      exists c. pose proof Ec as Ec'.
      rewrite array_get_firstn in Ec' by lia.
      apply array_get_Ok in Ec'. apply array_get_Ok in Ec.
      repeat split; try tauto. apply array_get_Ok. exact Ec.
    + intros i Ri. apply array_get_outside. rewrite length_firstn. lia.
Qed.

(** C6. Dangling indices. When the caller's arrays are large enough, either
    constructor returns a mesh whatever the element array holds; if the slot
    [l] of element [e] holds an index [g] outside [0, vert_num), then
    [eleVertPos(e, l)] reads [g] and ends in the fatal path of [vertPos]. *)
Theorem C6_dangling_index (Scalar : Type) (Dim vn : Z) (V : list Scalar) (en : Z)
    (E : list Z) (e l g : Z) :
  0 <= e < en -> g < 0 \/ vn <= g ->
  (forall k, fits_uniform Dim vn V en E k -> 0 <= l < k ->
     array_get E (e * k + l) = Ok g ->
     exists m, VolumetricMesh_uniform Dim vn V en E k = Ok m /\
               global_vert_idx m e l = Ok g /\
               vertPos Dim m g = Exit msg_vertex /\
               eleVertPos Dim m e l = Exit msg_vertex) /\
  (forall vpe c, fits_ragged Dim vn V en E vpe ->
     nth_error vpe (Z.to_nat e) = Some c -> 0 <= l < c ->
     array_get E (prefix_sum vpe e + l) = Ok g ->
     exists m, VolumetricMesh_ragged Dim vn V en E vpe = Ok m /\
               global_vert_idx m e l = Ok g /\
               vertPos Dim m g = Exit msg_vertex /\
               eleVertPos Dim m e l = Exit msg_vertex).
Proof.
  intros Re Rg. split.
  - intros k F Rl Eg. unfold fits_uniform in F.
    pose proof (uniform_returns Scalar Dim vn V en E k) as H.
    specialize (H ltac:(lia) ltac:(lia) ltac:(lia) ltac:(lia)).
    eexists. split; [exact H | ].
    destruct (slot_uniform _ _ _ _ _ _ _ _ e l H Re Rl) as (g' & Eg' & Gg).
    rewrite Eg in Eg'. injection Eg' as <-.
    assert (Hv : vertPos Dim
      {| vert_num_ := vn; vertices_ := firstn (Z.to_nat (vn * Dim)) V;
         ele_num_ := en; elements_ := firstn (Z.to_nat (en * k)) E;
         vert_per_ele_ := [k]; uniform_ele_type_ := true |} g = Exit msg_vertex)
      by (apply vertPos_outside; cbn [vert_num_]; exact Rg).
    split; [exact Gg | ]. split; [exact Hv | ].
    rewrite eleVertPos_global, Gg. cbn [bind]. exact Hv.
  - intros vpe c F Ec Rl Eg. unfold fits_ragged in F.
    destruct F as (Fv & Fn & Fc & Ft).
    pose proof (ragged_returns Scalar Dim vn V en E vpe) as H.
    specialize (H ltac:(lia) ltac:(lia) ltac:(lia) Fc ltac:(lia) ltac:(lia)).
    eexists. split; [exact H | ].
    destruct (slot_ragged _ _ _ _ _ _ _ _ e l c H Fc Re Ec Rl) as (g' & Eg' & Gg).
    rewrite Eg in Eg'. injection Eg' as <-.
    assert (Hv : vertPos Dim
      {| vert_num_ := vn; vertices_ := firstn (Z.to_nat (vn * Dim)) V;
         ele_num_ := en; elements_ := firstn (Z.to_nat (prefix_sum vpe en)) E;
         vert_per_ele_ := firstn (Z.to_nat en) vpe;
         uniform_ele_type_ := false |} g = Exit msg_vertex)
      by (apply vertPos_outside; cbn [vert_num_]; exact Rg).
    split; [exact Gg | ]. split; [exact Hv | ].
    rewrite eleVertPos_global, Gg. cbn [bind]. exact Hv.
Qed.

(** ** IEEE 754 sums and comparisons *)

Section SpecFloat.

Variables prec emax : Z.

Lemma SFadd_comm (x y : spec_float) :
  SFadd prec emax x y = SFadd prec emax y x.
Proof.
  destruct x as [sx | sx | | sx mx ex], y as [sy | sy | | sy my ey];
    try reflexivity; try (destruct sx, sy; reflexivity).
  unfold SFadd. rewrite (Z.min_comm ex ey).
  rewrite (Z.add_comm (cond_Zopp sx _)). reflexivity.
Qed.

Lemma SFadd_opp (x : spec_float) :
  SFadd prec emax x (SFopp x) =
  match x with
  | S754_zero _ | S754_finite _ _ _ => S754_zero false
  | _ => S754_nan
  end.
Proof.
  destruct x as [s | s | | s m e]; try reflexivity; try (destruct s; reflexivity).
  unfold SFopp, SFadd. rewrite Z.min_id. unfold shl_align.
  rewrite Z.sub_diag. cbn [fst].
  replace (cond_Zopp s (Zpos m) + cond_Zopp (negb s) (Zpos m)) with 0
    by (destruct s; cbn [cond_Zopp negb]; lia).
  reflexivity.
Qed.

End SpecFloat.

Lemma SFeqb_refl (x : spec_float) :
  SFeqb x x = match x with S754_nan => false | _ => true end.
Proof.
  destruct x as [s | s | | s m e]; try reflexivity; try (destruct s; reflexivity).
  unfold SFeqb, SFcompare. rewrite Z.compare_refl.
  change (Pos.compare_cont Eq m m) with (Pos.compare m m).
  rewrite Pos.compare_refl. destruct s; reflexivity.
Qed.

Lemma SFeqb_zero (x : spec_float) :
  SFeqb x (S754_zero false) = match x with S754_zero _ => true | _ => false end.
Proof.
  destruct x as [s | s | | s m e]; try reflexivity; destruct s; reflexivity.
Qed.

(** ** The two instantiations are IEEE 754 scalars *)

Lemma double_IEEE : IEEE_scalar double double_ops.
Proof.
  split.
  - exact add_spec.
  - exact opp_spec.
  - exact FloatAxioms.eqb_spec.
  - reflexivity.
  - exact Prim2SF_inj.
Qed.

Lemma float_IEEE : IEEE_scalar float float_ops.
Proof.
  split; try reflexivity. intros x y E. exact E.
Qed.

Lemma instantiation_IEEE (i : instantiation) :
  IEEE_scalar (scalar_of i) (scalar_of_ops i).
Proof. destruct i; [exact float_IEEE | exact double_IEEE]. Qed.

(** ** Scalars *)

Section Scalars.

Context {Scalar : Type} {ops : ScalarOps Scalar}.
Hypothesis ieee : IEEE_scalar Scalar ops.

Lemma s_add_comm (x y : Scalar) : s_add x y = s_add y x.
Proof.
  apply (to_SF_inj _ _ ieee). rewrite !(add_SF _ _ ieee). apply SFadd_comm.
Qed.

Lemma s_eqb_refl (x : Scalar) : s_eqb x x = negb (is_nan x).
Proof.
  rewrite (eqb_SF _ _ ieee), SFeqb_refl. unfold is_nan.
  destruct (to_SF x); reflexivity.
Qed.

Lemma s_add_neg (x : Scalar) :
  s_eqb (s_add x (s_neg x)) s_zero = is_finite x.
Proof.
  rewrite (eqb_SF _ _ ieee), (add_SF _ _ ieee), (neg_SF _ _ ieee), (zero_SF _ _ ieee).
  rewrite SFadd_opp, SFeqb_zero. unfold is_finite.
  destruct (to_SF x); reflexivity.
Qed.

Lemma to_bool_zero (x : Scalar) : to_bool x = negb (is_zero x).
Proof.
  unfold to_bool, is_zero.
  rewrite (eqb_SF _ _ ieee), (zero_SF _ _ ieee), SFeqb_zero. reflexivity.
Qed.

End Scalars.

(** ** The claims about [Vector2D] *)

Section VectorFacts.

Context {Scalar : Type} {ops : ScalarOps Scalar}.

Lemma op_eq_components (u v : Vector2D Scalar) :
  op_eq u v = s_eqb (at_ u 0) (at_ v 0) && s_eqb (at_ u 1) (at_ v 1).
Proof.
  unfold op_eq.
  destruct (s_eqb (at_ u 0) (at_ v 0)); destruct (s_eqb (at_ u 1) (at_ v 1));
    reflexivity.
Qed.

Lemma assign_same (st : store Scalar) (p : addr) (idx : Z) (x : Scalar) :
  assign st p idx x p = set_coeff (st p) idx x.
Proof. unfold assign. rewrite Nat.eqb_refl. reflexivity. Qed.

Lemma assign_other (st : store Scalar) (p q : addr) (idx : Z) (x : Scalar) :
  q <> p -> assign st p idx x q = st q.
Proof.
  intros N. unfold assign. destruct (Nat.eqb q p) eqn:E; [ | reflexivity].
  apply Nat.eqb_eq in E. contradiction.
Qed.

Lemma op_assign_copies (this vec2 : addr) (st : store Scalar) :
  fst (op_assign this vec2 st) = this /\
  snd (op_assign this vec2 st) this = st vec2 /\
  (forall p, p <> this -> snd (op_assign this vec2 st) p = st p).
Proof.
  unfold op_assign. cbn [fst snd]. split; [reflexivity | ]. split.
  - rewrite assign_same. unfold load.
    destruct (Nat.eq_dec vec2 this) as [-> | N].
    + rewrite !assign_same. destruct (st this) as [[x y]]. reflexivity.
    + rewrite assign_same, (assign_other _ _ _ _ _ N).
      destruct (st this) as [[x y]], (st vec2) as [[x' y']]. reflexivity.
  - intros p N. rewrite !assign_other by exact N. reflexivity.
Qed.

Lemma normalize_spec (this : addr) (st : store Scalar) :
  fst (normalize this st) = this /\
  (to_bool (norm (st this)) = true ->
   forall p, snd (normalize this st) p =
             if Nat.eqb p this
             then Vector2D_xy (s_div (at_ (st this) 0) (norm (st this)))
                              (s_div (at_ (st this) 1) (norm (st this)))
             else st p) /\
  (to_bool (norm (st this)) = false -> snd (normalize this st) = st).
Proof.
  unfold normalize.
  destruct (to_bool (norm (st this))); cbn [fst snd];
    (split; [reflexivity | ]); (split; [ | discriminate || reflexivity]);
    try discriminate.
  intros _ p. destruct (Nat.eqb p this) eqn:E.
  - apply Nat.eqb_eq in E. subst p. rewrite assign_same. unfold load.
    rewrite assign_same. destruct (st this) as [[x y]]. reflexivity.
  - apply Nat.eqb_neq in E. rewrite !assign_other by exact E. reflexivity.
Qed.

End VectorFacts.

(** C7. [normalize]. It returns a reference to the vector it was called on.
    When the norm of the vector is not a zero, each component [c] is replaced
    by [c / norm], the norm being the one computed on entry, and no other
    vector changes; when the norm is a zero the store is left as it was. The
    function always returns. *)
Theorem C7_normalize (i : instantiation) (st : store (scalar_of i)) (this : addr) :
  fst (normalize this st) = this /\
  (is_zero (norm (st this)) = false ->
   forall p, snd (normalize this st) p =
             if Nat.eqb p this
             then Vector2D_xy (s_div (at_ (st this) 0) (norm (st this)))
                              (s_div (at_ (st this) 1) (norm (st this)))
             else st p) /\
  (is_zero (norm (st this)) = true -> snd (normalize this st) = st).
Proof.
  pose proof (to_bool_zero (instantiation_IEEE i) (norm (st this))) as T.
  destruct (normalize_spec this st) as (H1 & H2 & H3).
  split; [exact H1 | ]. split.
  - intros Z. apply H2. rewrite T, Z. reflexivity.
  - intros Z. apply H3. rewrite T, Z. reflexivity.
Qed.

(** C8. Dot and cross product. For the vectors [(x0, x1)] and [(y0, y1)],
    [dot] is [x0*y0 + x1*y1] and [cross] is [x0*y1 - x1*y0], in the arithmetic
    of the scalar type; for [e0 = (1,0)] and [e1 = (0,1)], [e0.dot(e1) == 0],
    [e0.cross(e1) == 1] and [e1.cross(e0) == -1]. *)
Theorem C8_dot_cross (i : instantiation) :
  (forall x0 x1 y0 y1 : scalar_of i,
     dot (Vector2D_xy x0 x1) (Vector2D_xy y0 y1) =
       s_add (s_mul x0 y0) (s_mul x1 y1) /\
     cross (Vector2D_xy x0 x1) (Vector2D_xy y0 y1) =
       s_sub (s_mul x0 y1) (s_mul x1 y0)) /\
  (forall a b : Vector2D (scalar_of i),
     dot a b = s_add (s_mul (at_ a 0) (at_ b 0)) (s_mul (at_ a 1) (at_ b 1)) /\
     cross a b = s_sub (s_mul (at_ a 0) (at_ b 1)) (s_mul (at_ a 1) (at_ b 0))) /\
  (let e0 : Vector2D (scalar_of i) := Vector2D_xy s_one s_zero in
   let e1 : Vector2D (scalar_of i) := Vector2D_xy s_zero s_one in
   s_eqb (dot e0 e1) s_zero = true /\
   s_eqb (cross e0 e1) s_one = true /\
   s_eqb (cross e1 e0) (s_neg s_one) = true).
Proof.
  split; [intros x0 x1 y0 y1; split; reflexivity | ].
  split; [intros a b; split; reflexivity | ].
  destruct i; repeat split; vm_compute; reflexivity.
Qed.

(** C9, as the code has it. For all vectors [a] and [b] of either
    instantiation, [a + b] and [b + a] have the same components, and
    [a + b == b + a] is true exactly when no component of the sum is a NaN;
    [a + (-a) == (0,0)] is true exactly when both components of [a] are finite.
    Sums are rounded, so that [(a + b) + c == a + (b + c)] is no law: it is
    false for the finite vectors [(1,0)], [(2^p,0)], [(-2^p,0)], with [p] the
    precision of the scalar type. *)
Theorem C9_vector_addition (i : instantiation) (a b : Vector2D (scalar_of i)) :
  op_add a b = op_add b a /\
  op_eq (op_add a b) (op_add b a) =
    negb (is_nan (at_ (op_add a b) 0)) && negb (is_nan (at_ (op_add a b) 1)) /\
  op_eq (op_add a (op_neg a)) (Vector2D_xy s_zero s_zero) =
    is_finite (at_ a 0) && is_finite (at_ a 1) /\
  (let x : Vector2D (scalar_of i) := Vector2D_xy s_one s_zero in
   let y : Vector2D (scalar_of i) := Vector2D_xy (big i) s_zero in
   let z : Vector2D (scalar_of i) := Vector2D_xy (neg_big i) s_zero in
   is_finite (big i) = true /\ is_finite (neg_big i) = true /\
   op_eq (op_add (op_add x y) z) (op_add x (op_add y z)) = false).
Proof.
  pose proof (instantiation_IEEE i) as ieee.
  assert (C : op_add a b = op_add b a).
  { unfold op_add. rewrite (s_add_comm ieee (at_ a 0)), (s_add_comm ieee (at_ a 1)).
    reflexivity. }
  split; [exact C | ]. split.
  { rewrite <- C, op_eq_components, !(s_eqb_refl ieee). reflexivity. }
  split.
  { rewrite op_eq_components.
    destruct a as [[x y]]. unfold op_add, op_neg, Vector2D_xy, at_, coeff.
    cbn [eigen_vector_2x_ fst snd Z.eqb].
    rewrite !(s_add_neg ieee). reflexivity. }
  destruct i; repeat split; vm_compute; reflexivity.
Qed.

(** C10, as the code has it. The copy constructor leaves in the new object
    the two components of [vec2], and changes no other vector; the copy
    compares equal to [vec2] under [operator==] exactly when neither component
    is a NaN. *)
Theorem C10_copy_constructor (i : instantiation) (st : store (scalar_of i))
    (this vec2 : addr) :
  Vector2D_copy this vec2 st this = st vec2 /\
  Vector2D_copy this vec2 st vec2 = st vec2 /\
  (forall p, p <> this -> Vector2D_copy this vec2 st p = st p) /\
  op_eq (Vector2D_copy this vec2 st this) (Vector2D_copy this vec2 st vec2) =
    negb (is_nan (at_ (st vec2) 0)) && negb (is_nan (at_ (st vec2) 1)).
Proof.
  pose proof (instantiation_IEEE i) as ieee.
  destruct (op_assign_copies this vec2 st) as (_ & H1 & H2).
  unfold Vector2D_copy.
  assert (H3 : snd (op_assign this vec2 st) vec2 = st vec2).
  { destruct (Nat.eq_dec vec2 this) as [-> | N]; [exact H1 | exact (H2 _ N)]. }
  split; [exact H1 | ]. split; [exact H3 | ]. split; [exact H2 | ].
  rewrite H1, H3, op_eq_components, !(s_eqb_refl ieee). reflexivity.
Qed.

(** ** The scenarios of the specification *)

Example square_mesh_scenario :
  exists m, square_mesh = Ok m /\
    vertNum m = 4 /\ eleNum m = 2 /\ eleVertNum m 0 = Ok 3 /\
    eleVertPos 2 m 1 2 = Ok [0; 1]%float.
Proof. eexists. split; [vm_compute; reflexivity | ]. repeat split. Qed.

Example triangle_quad_scenario :
  exists m, triangle_quad_mesh = Ok m /\
    List.length (elements_ m) = 7%nat /\
    global_vert_idx m 1 0 = array_get (elements_ m) 3 /\
    global_vert_idx m 1 0 <> array_get (elements_ m) 4 /\
    eleVertPos 1 m 1 0 = Ok [13]%float.
Proof.
  eexists. split; [vm_compute; reflexivity | ].
  repeat split. vm_compute. discriminate.
Qed.

(** ** Inputs at which the claims C4, C5, C9 and C10 fail as first stated *)

(** C4 at [dangling_mesh]: element 0 has three vertices, so that the indices
    [(0, 2)] are in range, and yet [eleVertPos(0, 2)] takes the fatal path. *)
Lemma C4_in_range_yet_fatal :
  exists m, dangling_mesh = Ok m /\ initialized 2 m /\
    0 <= 0 < eleNum m /\ eleVertNum m 0 = Ok 3 /\ 0 <= 2 < 3 /\
    eleVertPos 2 m 0 2 = Exit msg_vertex.
Proof.
  eexists. split; [vm_compute; reflexivity | ]. split.
  - exists 3, [0; 0; 1; 0; 0; 1]%float, 1, [0; 1; 7]. left. exists 3. reflexivity.
  - unfold eleNum. cbn [ele_num_]. repeat split; try lia.
Qed.

(** C5 at [one_triangle_mesh]: the ragged mesh has one element, and
    [eleVertNum(1)] reads past the count array instead of taking the fatal
    path. *)
Lemma C5_ragged_out_of_range_not_fatal :
  exists m, one_triangle_mesh = Ok m /\
    eleNum m = 1 /\ isUniformElementType m = false /\
    eleVertNum m 1 = Undef /\ is_exit (eleVertNum m 1) = false.
Proof. eexists. split; [vm_compute; reflexivity | ]. repeat split. Qed.

(** C9 in [Vector2D<double>]: the sum is not associative at [(1,0)],
    [(2^53,0)], [(-2^53,0)]; [a + b == b + a] is false when [a] has a NaN
    component; [a + (-a) == (0,0)] is false when [a] has an infinite one. *)
Lemma C9_addition_laws_fail :
  (let a := vec 1 0 in
   let b := vec 9007199254740992 0 in
   let c := vec (-9007199254740992) 0 in
   op_eq (op_add (op_add a b) c) (op_add a (op_add b c)) = false) /\
  (let a := vec nan 0 in
   let b := vec 1 1 in
   op_eq (op_add a b) (op_add b a) = false) /\
  (let a := vec infinity 0 in
   op_eq (op_add a (op_neg a)) (vec 0 0) = false).
Proof. repeat split. Qed.

(** C10 in [Vector2D<double>]: the copy of [(NaN, 0)] does not compare equal
    to the vector it was copied from. *)
Lemma C10_copy_of_nan_differs :
  let st := store_of (vec nan 0) (vec 1 2) in
  let st' := Vector2D_copy 1%nat 0%nat st in
  st' 1%nat = vec nan 0 /\ st' 0%nat = vec nan 0 /\
  op_eq (st' 1%nat) (st' 0%nat) = false.
Proof. repeat split. Qed.

(** ** The theorems at concrete inputs *)

(** C1 at [square_mesh]. *)
Lemma C1_square_mesh :
  exists m, square_mesh = Ok m /\
    vertPos 2 m 3 = Ok [1; 1]%float /\
    eleVertPos 2 m 1 2 = Ok [0; 1]%float.
Proof.
  eexists. split; [vm_compute; reflexivity | ].
  destruct (proj1 (C1_mesh_round_trip double 2 4 [0; 0; 1; 0; 0; 1; 1; 1]%float
                     2 [0; 1; 2; 1; 3; 2]) 3 _ eq_refl) as (_ & Hv & He).
  split.
  - apply (Hv 3). lia.
  - destruct (He 1 2 ltac:(lia) ltac:(lia)) as (g & Eg & _ & Hg).
    injection Eg as <-. apply Hg. lia.
Defined.

(** C2 at the arrays of [square_mesh], with [k = 3]. *)
Lemma C2_square_mesh :
  0 < 3 /\
  exists mu mr,
    square_mesh = Ok mu /\
    VolumetricMesh_ragged 2 4 [0; 0; 1; 0; 0; 1; 1; 1]%float 2 [0; 1; 2; 1; 3; 2]
      (repeat 3 (Z.to_nat 2)) = Ok mr /\
    eleVertNum mu 1 = eleVertNum mr 1 /\
    eleVertPos 2 mu 1 2 = eleVertPos 2 mr 1 2 /\
    isUniformElementType mu = true /\ isUniformElementType mr = false.
Proof.
  split; [lia | ].
  eexists. eexists.
  split; [vm_compute; reflexivity | ].
  split; [vm_compute; reflexivity | ].
  destruct (proj2 (C2_uniform_ragged_equivalence double 2 4
                     [0; 0; 1; 0; 0; 1; 1; 1]%float 2 [0; 1; 2; 1; 3; 2] 3
                     ltac:(lia)) _ _ eq_refl eq_refl)
    as (_ & _ & Hn & _ & He & Hu & Hr).
  split; [apply Hn; lia | ].
  split; [apply He; lia | ].
  split; [exact Hu | exact Hr].
Defined.

(** C3 at [triangle_quad_mesh]: vertex 3, at [13], and not vertex 4. *)
Lemma C3_triangle_quad_mesh :
  exists m, triangle_quad_mesh = Ok m /\
    ele_idx_start m 1 0 = Ok 3 /\
    eleVertPos 1 m 1 0 = Ok [13]%float.
Proof.
  eexists. split; [vm_compute; reflexivity | ].
  destruct (proj2 (C3_ragged_offset double 1 7 [10; 11; 12; 13; 14; 15; 16]%float
                     2 [0; 1; 2; 3; 4; 5; 6] [3; 4] _ eq_refl) eq_refl eq_refl)
    as [Hs He].
  split; [exact Hs | exact He].
Defined.

(** C5 at [square_mesh] and at [one_triangle_mesh]. *)
Lemma C5_example_meshes :
  (exists m, square_mesh = Ok m /\ eleVertNum m 99 = Ok 3) /\
  (exists m, one_triangle_mesh = Ok m /\
     eleVertNum m 0 = Ok 3 /\ eleVertNum m 1 = Undef).
Proof.
  split.
  - eexists. split; [vm_compute; reflexivity | ].
    apply (proj1 (C5_eleVertNum double 2 4 [0; 0; 1; 0; 0; 1; 1; 1]%float
                    2 [0; 1; 2; 1; 3; 2]) 3 _ eq_refl).
  - eexists. split; [vm_compute; reflexivity | ].
    destruct (proj2 (C5_eleVertNum double 2 3 [0; 0; 1; 0; 0; 1]%float
                       1 [0; 1; 2]) [3] _ eq_refl) as [Hi Ho].
    split.
    + destruct (Hi 0 ltac:(unfold eleNum; cbn [ele_num_]; lia)) as (c & Ec & _ & Hc).
      injection Ec as <-. exact Hc.
    + apply Ho. right. unfold eleNum. cbn [ele_num_]. lia.
Defined.

(** C6 at [dangling_mesh]. *)
Lemma C6_dangling_mesh :
  0 <= 0 < 1 /\ (7 < 0 \/ 3 <= 7) /\
  fits_uniform 2 3 [0; 0; 1; 0; 0; 1]%float 1 [0; 1; 7] 3 /\
  0 <= 2 < 3 /\
  array_get [0; 1; 7] (0 * 3 + 2) = Ok 7 /\
  exists m, dangling_mesh = Ok m /\ eleVertPos 2 m 0 2 = Exit msg_vertex.
Proof.
  assert (F : fits_uniform 2 3 [0; 0; 1; 0; 0; 1]%float 1 [0; 1; 7] 3)
    by (unfold fits_uniform; cbn [List.length]; int_lia).
  split; [lia | ]. split; [right; lia | ]. split; [exact F | ].
  split; [lia | ]. split; [reflexivity | ].
  destruct (proj1 (C6_dangling_index double 2 3 [0; 0; 1; 0; 0; 1]%float 1
                     [0; 1; 7] 0 2 7 ltac:(lia) ltac:(right; lia))
                  3 F ltac:(lia) eq_refl) as (m & Hm & _ & _ & He).
  exists m. split; [exact Hm | exact He].
Defined.

(** C7 at the vector [(3, 4)], of norm 5, and at the zero vector. *)
Lemma C7_three_four :
  (let st := store_of (vec 3 4) (vec 7 7) in
   is_zero (norm (st 0%nat)) = false /\
   snd (normalize 0%nat st) 0%nat = vec (3 / 5) (4 / 5) /\
   snd (normalize 0%nat st) 1%nat = vec 7 7) /\
  (let st := store_of (vec 0 0) (vec 7 7) in
   is_zero (norm (st 0%nat)) = true /\
   snd (normalize 0%nat st) = st).
Proof.
  split.
  - cbv zeta.
    assert (Z : is_zero (norm (store_of (vec 3 4) (vec 7 7) 0%nat)) = false)
      by reflexivity.
    pose proof (proj1 (proj2 (C7_normalize Vector2D_double
                  (store_of (vec 3 4) (vec 7 7)) 0%nat)) Z) as H.
    split; [exact Z | ]. split; [exact (H 0%nat) | exact (H 1%nat)].
  - cbv zeta.
    assert (Z : is_zero (norm (store_of (vec 0 0) (vec 7 7) 0%nat)) = true)
      by reflexivity.
    split; [exact Z | ].
    exact (proj2 (proj2 (C7_normalize Vector2D_double
                  (store_of (vec 0 0) (vec 7 7)) 0%nat)) Z).
Defined.

(** C10 at the vector [(1, 2)], copied from address 0 to address 1. *)
Lemma C10_copy_one_two :
  let st := store_of (vec 1 2) (vec 7 7) in
  2%nat <> 1%nat /\
  Vector2D_copy 1%nat 0%nat st 1%nat = vec 1 2 /\
  Vector2D_copy 1%nat 0%nat st 2%nat = vec 7 7 /\
  op_eq (Vector2D_copy 1%nat 0%nat st 1%nat) (Vector2D_copy 1%nat 0%nat st 0%nat) = true.
Proof.
  cbv zeta.
  destruct (C10_copy_constructor Vector2D_double (store_of (vec 1 2) (vec 7 7))
              1%nat 0%nat) as (H1 & _ & H3 & H4).
  assert (N : 2%nat <> 1%nat) by discriminate.
  split; [exact N | ]. split; [exact H1 | ]. split; [exact (H3 2%nat N) | exact H4].
Defined.

(** * Further properties of the mesh *)

Lemma Forall_firstn {A : Type} (P : A -> Prop) (l : list A) (n : nat) :
  Forall P l -> Forall P (firstn n l).
Proof.
  intros F. rewrite <- (firstn_skipn n l) in F.
  apply Forall_app in F. exact (proj1 F).
Qed.

Lemma array_get_In {A : Type} (a : list A) (i : Z) (x : A) :
  array_get a i = Ok x -> In x a.
Proof.
  intros E. apply array_get_Ok in E. destruct E as [_ E].
  exact (nth_error_In _ _ E).
Qed.

Section MoreQueries.

Variable Scalar : Type.
Variable Dim : Z.

(** What [ele_idx_start] has checked and computed when it returns. *)
Lemma ele_idx_start_Ok (m : VolumetricMesh Scalar) (e l s : Z) :
  ele_idx_start m e l = Ok s ->
  0 <= e < ele_num_ m /\
  exists c, eleVertNum m e = Ok c /\ 0 <= l < c /\
    if uniform_ele_type_ m then s = e * c /\ INT_MIN <= e * c <= INT_MAX
    else sum_loop (vert_per_ele_ m) 0 (Z.to_nat e) 0 = Ok s.
Proof.
  unfold ele_idx_start, eleVertNum.
  destruct (e <? 0) eqn:E1; [discriminate | ].
  destruct (e >=? ele_num_ m) eqn:E2; [discriminate | ]. cbn [orb].
  intros H. split; [lia | ].
  destruct (uniform_ele_type_ m).
  - apply bind_Ok in H. destruct H as (k & Ek & H). exists k.
    split; [exact Ek | ].
    destruct (l <? 0) eqn:E3; [discriminate | ].
    destruct (l >=? k) eqn:E4; [discriminate | ]. cbn [orb] in H.
    apply to_int_Ok in H. destruct H as [-> R]. repeat split; lia.
  - apply bind_Ok in H. destruct H as (c & Ec & H). exists c.
    split; [exact Ec | ].
    destruct (l <? 0) eqn:E3; [discriminate | ].
    destruct (l >=? c) eqn:E4; [discriminate | ]. cbn [orb] in H.
    split; [lia | exact H].
Qed.

(** [eleVertPos] with an element index in range and a local index out of
    range. *)
Lemma eleVertPos_local_exit (m : VolumetricMesh Scalar) (e l c : Z) :
  0 <= e < ele_num_ m -> eleVertNum m e = Ok c -> l < 0 \/ c <= l ->
  eleVertPos Dim m e l = Exit msg_local.
Proof.
  unfold eleVertNum, eleVertPos, ele_idx_start. intros Re Ec Rl.
  destruct (e <? 0) eqn:E1; [lia | ].
  destruct (e >=? ele_num_ m) eqn:E2; [lia | ]. cbn [orb].
  destruct (uniform_ele_type_ m); rewrite Ec; cbn [bind];
    (destruct (l <? 0) eqn:E3; [reflexivity | ]);
    (destruct (l >=? c) eqn:E4; [reflexivity | lia]).
Qed.

(** In an initialized mesh every element in range has a vertex count. *)
Lemma eleVertNum_in_range (m : VolumetricMesh Scalar) (e : Z) :
  initialized Dim m -> 0 <= e < ele_num_ m -> exists c, eleVertNum m e = Ok c.
Proof.
  intros (vn & V & en & E & [[k H] | [vpe H]]) Re.
  - apply uniform_inv in H. destruct H as [_ ->]. exists k. reflexivity.
  - apply ragged_inv in H. destruct H as (F & _ & ->).
    cbn [ele_num_] in Re. unfold eleVertNum. cbn [uniform_ele_type_ vert_per_ele_].
    apply array_get_inside. rewrite length_firstn. lia.
Qed.

(** The sizes of the three buffers of an initialized mesh. *)
Lemma initialized_sizes (m : VolumetricMesh Scalar) :
  initialized Dim m ->
  (0 <= vert_num_ m * Dim <= INT_MAX /\
   Z.of_nat (List.length (vertices_ m)) = vert_num_ m * Dim) /\
  Z.of_nat (List.length (elements_ m)) <= INT_MAX /\
  if uniform_ele_type_ m then
    exists k, vert_per_ele_ m = [k] /\ 0 <= ele_num_ m * k <= INT_MAX /\
              Z.of_nat (List.length (elements_ m)) = ele_num_ m * k
  else
    0 <= ele_num_ m /\
    Z.of_nat (List.length (vert_per_ele_ m)) = ele_num_ m /\
    Z.of_nat (List.length (elements_ m)) = Zsum (vert_per_ele_ m) /\
    sum_loop (vert_per_ele_ m) 0 (Z.to_nat (ele_num_ m)) 0 =
      Ok (Zsum (vert_per_ele_ m)).
Proof.
  intros (vn & V & en & E & [[k H] | [vpe H]]).
  - apply uniform_inv in H. destruct H as [F ->]. unfold fits_uniform in F.
    cbn [vert_num_ vertices_ elements_ uniform_ele_type_ vert_per_ele_ ele_num_].
    rewrite !length_firstn. repeat split; try lia.
    exists k. repeat split; lia.
  - apply ragged_inv in H. destruct H as (F & Hs & ->).
    cbn [vert_num_ vertices_ elements_ uniform_ele_type_ vert_per_ele_ ele_num_].
    rewrite !length_firstn. fold (prefix_sum vpe en).
    repeat split; try lia. exact Hs.
Qed.

(** The components that [vertPos] returns for an index in range. *)
Lemma vertPos_components (m : VolumetricMesh Scalar) (i : Z) :
  initialized Dim m -> 0 <= i < vert_num_ m ->
  exists pos, vertPos Dim m i = Ok pos /\ List.length pos = Z.to_nat Dim.
Proof.
  intros I Ri. destruct (initialized_sizes m I) as ((Rv & Lv) & _).
  unfold vertPos.
  destruct (i <? 0) eqn:E1; [lia | ].
  destruct (i >=? vert_num_ m) eqn:E2; [lia | ]. cbn [orb].
  destruct (Z.le_gt_cases Dim 0) as [Dn | Dp].
  - replace (Z.to_nat Dim) with 0%nat by lia. exists []. split; reflexivity.
  - rewrite vertPos_loop_reads by nia.
    eexists. split; [reflexivity | ].
    rewrite length_firstn, length_skipn. nia.
Qed.

(** The cell of the connectivity buffer that a call reads, once
    [ele_idx_start] has returned, for vertex counts that are not negative. *)
Lemma slot_offset (m : VolumetricMesh Scalar) (e l s : Z) :
  initialized Dim m -> Forall (fun c => 0 <= c) (vert_per_ele_ m) ->
  ele_idx_start m e l = Ok s ->
  exists c, eleVertNum m e = Ok c /\ 0 <= l < c /\ 0 <= e < ele_num_ m /\
    s = (if uniform_ele_type_ m then e * c
         else prefix_sum (vert_per_ele_ m) e) /\
    0 <= s /\ s + c <= Z.of_nat (List.length (elements_ m)).
Proof.
  intros I Hc Hs.
  destruct (ele_idx_start_Ok m e l s Hs) as (Re & c & Ec & Rl & Hv).
  destruct (initialized_sizes m I) as (_ & _ & Hz).
  exists c. split; [exact Ec | ]. split; [exact Rl | ]. split; [exact Re | ].
  destruct (uniform_ele_type_ m) eqn:Hu.
  - destruct Hz as (k & Ek & Rk & Lk). destruct Hv as [-> _].
    unfold eleVertNum in Ec. rewrite Hu, Ek in Ec. injection Ec as <-.
    split; [reflexivity | ]. nia.
  - destruct Hz as (Rn & Ln & Le & _).
    destruct (sum_loop_Ok _ _ _ _ _ (Z.le_refl 0) Hv) as [-> _].
    change (Z.to_nat 0) with 0%nat. cbn [skipn].
    fold (prefix_sum (vert_per_ele_ m) e).
    replace (0 + prefix_sum (vert_per_ele_ m) e)
      with (prefix_sum (vert_per_ele_ m) e) by lia.
    split; [reflexivity | ].
    unfold eleVertNum in Ec. rewrite Hu in Ec.
    apply array_get_Ok in Ec. destruct Ec as [_ Ec].
    pose proof (prefix_sum_succ _ e c ltac:(lia) Ec) as P1.
    assert (Fn : forall n, Forall (fun c => 0 <= c)
                             (firstn (Z.to_nat n) (vert_per_ele_ m)))
      by (intros n; apply Forall_firstn; exact Hc).
    pose proof (prefix_sum_nonneg _ e e ltac:(lia) (Fn e)) as P0.
    pose proof (prefix_sum_mono _ (e + 1) (ele_num_ m) ltac:(lia) (Fn _)) as P2.
    assert (Pn : prefix_sum (vert_per_ele_ m) (ele_num_ m) = Zsum (vert_per_ele_ m)).
    { unfold prefix_sum. rewrite firstn_all2 by lia. reflexivity. }
    lia.
Qed.

End MoreQueries.

Section MoreMeshFacts.

Variable Scalar : Type.
Variable Dim : Z.

(** The start offsets of two elements are apart by at least the vertex count
    of the first. *)
Lemma start_monotone (m : VolumetricMesh Scalar) (e l s e' l' s' c : Z) :
  initialized Dim m -> Forall (fun c => 0 <= c) (vert_per_ele_ m) ->
  ele_idx_start m e l = Ok s -> ele_idx_start m e' l' = Ok s' ->
  eleVertNum m e = Ok c -> e < e' -> s + c <= s'.
Proof.
  intros I Hc Hs Hs' Ec Lt.
  destruct (slot_offset _ Dim m e l s I Hc Hs) as (c1 & Ec1 & Rl & Re & Vs & _).
  destruct (slot_offset _ Dim m e' l' s' I Hc Hs') as (c2 & Ec2 & Rl' & Re' & Vs' & _).
  rewrite Ec in Ec1. injection Ec1 as <-.
  destruct (uniform_ele_type_ m) eqn:Hu.
  - unfold eleVertNum in Ec, Ec2. rewrite Hu in Ec, Ec2.
    rewrite Ec in Ec2. injection Ec2 as <-. subst s s'. nia.
  - subst s s'.
    unfold eleVertNum in Ec. rewrite Hu in Ec.
    apply array_get_Ok in Ec. destruct Ec as [_ Ec].
    rewrite <- (prefix_sum_succ _ e c ltac:(lia) Ec).
    apply prefix_sum_mono; [lia | ]. apply Forall_firstn. exact Hc.
Qed.

End MoreMeshFacts.

(** X1. A default-constructed mesh has no vertex and no element and is not
    uniform; [vertPos] and [eleVertPos] take the fatal path at every index, and
    [eleVertNum] reads through the null count pointer. *)
Theorem default_mesh_queries (Scalar : Type) (Dim : Z) :
  vertNum (VolumetricMesh_default Scalar) = 0 /\
  eleNum (VolumetricMesh_default Scalar) = 0 /\
  isUniformElementType (VolumetricMesh_default Scalar) = false /\
  (forall i, vertPos Dim (VolumetricMesh_default Scalar) i = Exit msg_vertex) /\
  (forall e l, eleVertPos Dim (VolumetricMesh_default Scalar) e l = Exit msg_element) /\
  (forall e, eleVertNum (VolumetricMesh_default Scalar) e = Undef).
Proof.
  repeat split.
  - intros i. apply vertPos_outside. cbn [vert_num_ VolumetricMesh_default]. lia.
  - intros e l. apply eleVertPos_element_outside.
    cbn [ele_num_ VolumetricMesh_default]. lia.
  - intros e. unfold eleVertNum. cbn [uniform_ele_type_ vert_per_ele_ VolumetricMesh_default].
    apply array_get_outside. cbn [List.length]. lia.
Qed.

(** X2. The buffers of an initialized mesh have exactly the computed sizes:
    [vert_num * Dim] scalars; one count and [ele_num * vert_per_ele] indices in
    a uniform mesh; [ele_num] counts and as many indices as the counts add up
    to in a ragged mesh. *)
Theorem buffers_sized_exactly (Scalar : Type) (Dim : Z) (m : VolumetricMesh Scalar) :
  initialized Dim m ->
  Z.of_nat (List.length (vertices_ m)) = vertNum m * Dim /\
  (isUniformElementType m = true ->
   exists k, eleVertNum m 0 = Ok k /\
     List.length (vert_per_ele_ m) = 1%nat /\
     Z.of_nat (List.length (elements_ m)) = eleNum m * k) /\
  (isUniformElementType m = false ->
   Z.of_nat (List.length (vert_per_ele_ m)) = eleNum m /\
   Z.of_nat (List.length (elements_ m)) = Zsum (vert_per_ele_ m)).
Proof.
  intros I. destruct (initialized_sizes _ Dim m I) as ((_ & Lv) & _ & H).
  unfold vertNum, eleNum, isUniformElementType, eleVertNum.
  split; [exact Lv | ].
  destruct (uniform_ele_type_ m).
  - split; [ | discriminate]. intros _.
    destruct H as (k & Ek & _ & Lk). exists k. rewrite Ek.
    repeat split. exact Lk.
  - split; [discriminate | ]. intros _. destruct H as (_ & Ln & Le & _).
    split; assumption.
Qed.

(** X4. On an initialized mesh whose connectivity is valid, every query at
    indices in range returns a vector of [Dim] components: [vertPos] at a
    vertex index in range, and [eleVertPos] at an element index and a local
    index in range, through a vertex index in [0, vertNum()). *)
Theorem valid_mesh_queries_return (Scalar : Type) (Dim : Z)
    (m : VolumetricMesh Scalar) :
  initialized Dim m ->
  (forall i, 0 <= i < vertNum m ->
     exists pos, vertPos Dim m i = Ok pos /\ List.length pos = Z.to_nat Dim) /\
  (valid_connectivity m ->
   forall e l c, 0 <= e < eleNum m -> eleVertNum m e = Ok c -> 0 <= l < c ->
     exists g pos,
       global_vert_idx m e l = Ok g /\ 0 <= g < vertNum m /\
       eleVertPos Dim m e l = Ok pos /\ List.length pos = Z.to_nat Dim).
Proof.
  intros I. unfold vertNum, eleNum.
  split; [intros i Ri; apply vertPos_components; assumption | ].
  intros [Hg Hc] e l c Re Ec Rl.
  destruct (initialized_sizes _ Dim m I) as (_ & Lm & Hz).
  assert (G : exists off, global_vert_idx m e l = array_get (elements_ m) off /\
                          0 <= off < Z.of_nat (List.length (elements_ m))).
  { destruct (uniform_ele_type_ m) eqn:Hu.
    - destruct Hz as (k & Ek & Rk & Lk).
      pose proof Ec as Ec'. unfold eleVertNum in Ec'. rewrite Hu, Ek in Ec'.
      injection Ec' as <-.
      exists (e * k + l). split; [ | nia].
      apply global_vert_idx_uniform; try assumption; lia.
    - destruct Hz as (Rn & Ln & Le & Hs).
      pose proof Ec as Ec'. unfold eleVertNum in Ec'. rewrite Hu in Ec'.
      exists (prefix_sum (vert_per_ele_ m) e + l). split.
      + apply (global_vert_idx_ragged _ m _ e l c Hu Hs Lm Re Ec' Rl).
      + apply array_get_Ok in Ec'. destruct Ec' as [_ Ec'].
        pose proof (prefix_sum_succ _ e c ltac:(lia) Ec') as P1.
        assert (Fn : forall n, Forall (fun c => 0 <= c)
                                 (firstn (Z.to_nat n) (vert_per_ele_ m)))
          by (intros n; apply Forall_firstn; exact Hc).
        pose proof (prefix_sum_nonneg _ e e ltac:(lia) (Fn e)) as P0.
        pose proof (prefix_sum_mono _ (e + 1) (ele_num_ m) ltac:(lia) (Fn _)) as P2.
        assert (Pn : prefix_sum (vert_per_ele_ m) (ele_num_ m) = Zsum (vert_per_ele_ m)).
        { unfold prefix_sum. rewrite firstn_all2 by lia. reflexivity. }
        lia. }
  destruct G as (off & Eg & Ro).
  destruct (array_get_inside (elements_ m) off Ro) as [g Og].
  rewrite Og in Eg.
  assert (Rg : 0 <= g < vert_num_ m).
  { apply array_get_In in Og. rewrite Forall_forall in Hg. apply Hg. exact Og. }
  destruct (vertPos_components _ Dim m g I Rg) as (pos & Ep & Lp).
  exists g, pos. split; [exact Eg | ]. split; [exact Rg | ].
  split; [ | exact Lp].
  rewrite eleVertPos_global, Eg. cbn [bind]. exact Ep.
Qed.

(** X5. Bounds are enforced at every index, in this order: a vertex index
    outside [0, vertNum()) is fatal in [vertPos]; an element index outside
    [0, eleNum()) is fatal in [eleVertPos] whatever the local index; with the
    element index in range, a local index outside [0, eleVertNum(e)) is
    fatal. *)
Theorem bounds_enforced_everywhere (Scalar : Type) (Dim : Z)
    (m : VolumetricMesh Scalar) :
  initialized Dim m ->
  (forall i, i < 0 \/ vertNum m <= i -> vertPos Dim m i = Exit msg_vertex) /\
  (forall e l, e < 0 \/ eleNum m <= e -> eleVertPos Dim m e l = Exit msg_element) /\
  (forall e, 0 <= e < eleNum m ->
     exists c, eleVertNum m e = Ok c /\
       forall l, l < 0 \/ c <= l -> eleVertPos Dim m e l = Exit msg_local).
Proof.
  intros I. unfold vertNum, eleNum.
  split; [intros i Ri; apply vertPos_outside; exact Ri | ].
  split; [intros e l Re; apply eleVertPos_element_outside; exact Re | ].
  intros e Re. destruct (eleVertNum_in_range _ Dim m e I Re) as [c Ec].
  exists c. split; [exact Ec | ].
  intros l Rl. exact (eleVertPos_local_exit _ Dim m e l c Re Ec Rl).
Qed.

(** X6. In an initialized mesh whose vertex counts are not negative, every
    call of [eleVertPos] that passes the two checks reads a cell inside the
    connectivity buffer, and two such calls read the same cell only when they
    have the same element index and the same local index. *)
Theorem connectivity_slots_disjoint (Scalar : Type) (Dim : Z)
    (m : VolumetricMesh Scalar) :
  initialized Dim m -> Forall (fun c => 0 <= c) (vert_per_ele_ m) ->
  (forall e l s, ele_idx_start m e l = Ok s ->
     0 <= s + l < Z.of_nat (List.length (elements_ m)) /\
     global_vert_idx m e l = array_get (elements_ m) (s + l)) /\
  (forall e l s e' l' s',
     ele_idx_start m e l = Ok s -> ele_idx_start m e' l' = Ok s' ->
     s + l = s' + l' -> e = e' /\ l = l').
Proof.
  intros I Hc. split.
  - intros e l s Hs.
    destruct (slot_offset _ Dim m e l s I Hc Hs) as (c & Ec & Rl & Re & Vs & R0 & R1).
    destruct (initialized_sizes _ Dim m I) as (_ & Lm & _).
    split; [lia | ].
    unfold global_vert_idx. rewrite Hs. cbn [bind]. unfold int_add.
    rewrite to_int_in_range by int_lia. reflexivity.
  - intros e l s e' l' s' Hs Hs' Eq.
    destruct (slot_offset _ Dim m e l s I Hc Hs) as (c & Ec & Rl & Re & Vs & _).
    destruct (slot_offset _ Dim m e' l' s' I Hc Hs') as (c' & Ec' & Rl' & Re' & Vs' & _).
    destruct (Z.lt_trichotomy e e') as [Lt | [-> | Gt]].
    + pose proof (start_monotone _ Dim m e l s e' l' s' c I Hc Hs Hs' Ec Lt). lia.
    + rewrite Ec in Ec'. injection Ec' as <-. subst s s'. split; [reflexivity | lia].
    + pose proof (start_monotone _ Dim m e' l' s' e l s c' I Hc Hs' Hs Ec' Gt). lia.
Qed.

(** * Further properties of [Vector2D] *)

(** ** IEEE 754 differences, products and signs *)

Section MoreSpecFloat.

Variables prec emax : Z.

Lemma SFsub_add_opp (x y : spec_float) :
  SFsub prec emax x y = SFadd prec emax x (SFopp y).
Proof.
  destruct x as [sx | sx | | sx mx ex], y as [sy | sy | | sy my ey];
    try reflexivity; destruct sx, sy; reflexivity.
Qed.

Lemma SFopp_involutive (x : spec_float) : SFopp (SFopp x) = x.
Proof. destruct x as [s | s | | s m e]; cbn [SFopp]; rewrite ?negb_involutive; reflexivity. Qed.

Lemma SFmul_comm (x y : spec_float) :
  SFmul prec emax x y = SFmul prec emax y x.
Proof.
  destruct x as [sx | sx | | sx mx ex], y as [sy | sy | | sy my ey];
    cbn [SFmul]; rewrite ?(xorb_comm sx sy); try reflexivity.
  rewrite (Pos.mul_comm mx my), (Z.add_comm ex ey). reflexivity.
Qed.

Lemma binary_round_aux_opp (s : bool) (m e : Z) (l : location) :
  SFopp (binary_round_aux prec emax s m e l) =
  binary_round_aux prec emax (negb s) m e l.
Proof.
  unfold binary_round_aux.
  destruct (shr_fexp prec emax m e l) as [mrs' e'].
  destruct (shr_fexp prec emax _ e' loc_Exact) as [mrs'' e''].
  destruct (shr_m mrs''); try reflexivity.
  destruct (e'' <=? emax - prec); reflexivity.
Qed.

Lemma binary_round_opp (s : bool) (m : positive) (e : Z) :
  SFopp (binary_round prec emax s m e) = binary_round prec emax (negb s) m e.
Proof.
  unfold binary_round. destruct (shl_align m e _) as [mz ez].
  apply binary_round_aux_opp.
Qed.

Lemma binary_round_aux_nonneg (m e : Z) (l : location) :
  SFnonneg (binary_round_aux prec emax false m e l) = true.
Proof.
  unfold binary_round_aux.
  destruct (shr_fexp prec emax m e l) as [mrs' e'].
  destruct (shr_fexp prec emax _ e' loc_Exact) as [mrs'' e''].
  destruct (shr_m mrs''); try reflexivity.
  destruct (e'' <=? emax - prec); reflexivity.
Qed.

Lemma SFmul_opp_l (x y : spec_float) :
  SFmul prec emax (SFopp x) y = SFopp (SFmul prec emax x y).
Proof.
  destruct x as [sx | sx | | sx mx ex], y as [sy | sy | | sy my ey];
    cbn [SFmul SFopp]; rewrite <- ?negb_xorb_l; try reflexivity.
  rewrite binary_round_aux_opp. reflexivity.
Qed.

Lemma SFdiv_opp_l (x y : spec_float) :
  SFdiv prec emax (SFopp x) y = SFopp (SFdiv prec emax x y).
Proof.
  destruct x as [sx | sx | | sx mx ex], y as [sy | sy | | sy my ey];
    cbn [SFdiv SFopp]; rewrite <- ?negb_xorb_l; try reflexivity.
  destruct (SFdiv_core_binary prec emax (Z.pos mx) ex (Z.pos my) ey) as [[mz ez] lz].
  rewrite binary_round_aux_opp. reflexivity.
Qed.

Lemma SFmul_self_nonneg (x : spec_float) :
  SFnonneg (SFmul prec emax x x) = true.
Proof.
  destruct x as [s | s | | s m e]; cbn [SFmul SFnonneg];
    rewrite ?xorb_nilpotent; try reflexivity.
  apply binary_round_aux_nonneg.
Qed.

Lemma SFadd_nonneg (x y : spec_float) :
  SFnonneg x = true -> SFnonneg y = true ->
  SFnonneg (SFadd prec emax x y) = true.
Proof.
  destruct x as [sx | sx | | sx mx ex], y as [sy | sy | | sy my ey];
    cbn [SFnonneg]; intros Hx Hy;
    try (apply negb_true_iff in Hx; subst sx);
    try (apply negb_true_iff in Hy; subst sy);
    try reflexivity.
  unfold SFadd. cbn [cond_Zopp].
  change (Z.pos ?a + Z.pos ?b) with (Z.pos (a + b)).
  cbn [binary_normalize]. unfold binary_round.
  destruct (shl_align _ _ _) as [mz ez]. apply binary_round_aux_nonneg.
Qed.

Lemma SFsqrt_nonneg (x : spec_float) :
  SFnonneg x = true -> SFnonneg (SFsqrt prec emax x) = true.
Proof.
  destruct x as [s | s | | s m e]; cbn [SFnonneg]; intros Hx;
    try (apply negb_true_iff in Hx; subst s); try reflexivity.
  cbn [SFsqrt].
  destruct (SFsqrt_core_binary prec emax (Z.pos m) e) as [[mz ez] lz].
  apply binary_round_aux_nonneg.
Qed.

(** [y - x] is the opposite of [x - y], but for the sign of a zero. *)
Lemma SFsub_swap (x y : spec_float) :
  SFsub prec emax y x = SFopp (SFsub prec emax x y) \/
  exists s s', SFsub prec emax y x = S754_zero s /\
               SFsub prec emax x y = S754_zero s'.
Proof.
  destruct x as [sx | sx | | sx mx ex], y as [sy | sy | | sy my ey];
    try (left; reflexivity);
    try (destruct sx, sy; (left; reflexivity) || (right; eexists; eexists; split; reflexivity)).
  unfold SFsub. rewrite (Z.min_comm ey ex).
  set (X := cond_Zopp sx (Z.pos (fst (shl_align mx ex (Z.min ex ey))))).
  set (Y := cond_Zopp sy (Z.pos (fst (shl_align my ey (Z.min ex ey))))).
  replace (Y - X) with (- (X - Y)) by lia.
  destruct (X - Y) as [ | p | p]; cbn [Z.opp binary_normalize].
  - right. exists false, false. split; reflexivity.
  - left. rewrite binary_round_opp. reflexivity.
  - left. rewrite binary_round_opp. reflexivity.
Qed.

Lemma SFsub_diag (x : spec_float) :
  SFsub prec emax x x =
  match x with
  | S754_zero _ | S754_finite _ _ _ => S754_zero false
  | _ => S754_nan
  end.
Proof.
  rewrite SFsub_add_opp. apply SFadd_opp.
Qed.

Lemma SFadd_zero_r (x : spec_float) :
  SFeqb (SFadd prec emax x (S754_zero false)) x =
  match x with S754_nan => false | _ => true end.
Proof.
  destruct x as [s | s | | s m e]; try reflexivity.
  - destruct s; reflexivity.
  - cbn [SFadd]. apply SFeqb_refl.
  - cbn [SFadd]. apply SFeqb_refl.
Qed.

Lemma SFadd_zero_l (x : spec_float) :
  SFeqb (SFadd prec emax (S754_zero false) x) x =
  match x with S754_nan => false | _ => true end.
Proof. rewrite SFadd_comm. apply SFadd_zero_r. Qed.

End MoreSpecFloat.

(** What [SFeqb] holds equal. *)
Lemma SFeqb_true (x y : spec_float) :
  SFeqb x y = true <->
  match x, y with
  | S754_zero _, S754_zero _ => True
  | S754_infinity s, S754_infinity s' => s = s'
  | S754_finite s m e, S754_finite s' m' e' => s = s' /\ m = m' /\ e = e'
  | _, _ => False
  end.
Proof.
  destruct x as [sx | sx | | sx mx ex], y as [sy | sy | | sy my ey];
    try (cbv; tauto);
    try (cbv; split; [discriminate | tauto]);
    try (destruct sx; cbv; (split; [discriminate | tauto]));
    try (destruct sy; cbv; (split; [discriminate | tauto])).
  - destruct sx, sy; cbv; split; intros H; reflexivity || discriminate H.
  - unfold SFeqb, SFcompare.
    change (Pos.compare_cont Eq mx my) with (Pos.compare mx my).
    destruct sx, sy; try (split; [discriminate | intros (? & _); discriminate]);
      destruct (Z.compare_spec ex ey) as [-> | L | L];
      try (split; [discriminate | intros (_ & _ & ?); lia]);
      destruct (Pos.compare_spec mx my) as [-> | L | L]; cbn [CompOpp];
      try (split; [discriminate | intros (_ & ? & _); lia]);
      split; tauto || reflexivity.
Qed.

Lemma SFeqb_sym (x y : spec_float) : SFeqb x y = SFeqb y x.
Proof.
  destruct (SFeqb x y) eqn:E1; destruct (SFeqb y x) eqn:E2; try reflexivity.
  - apply SFeqb_true in E1. assert (E3 : SFeqb y x = true).
    { apply SFeqb_true.
      destruct x as [sx | sx | | sx mx ex], y as [sy | sy | | sy my ey];
        try exact E1; try tauto; try congruence.
      destruct E1 as (-> & -> & ->). tauto. }
    congruence.
  - apply SFeqb_true in E2. assert (E3 : SFeqb x y = true).
    { apply SFeqb_true.
      destruct x as [sx | sx | | sx mx ex], y as [sy | sy | | sy my ey];
        try exact E2; try tauto; try congruence.
      destruct E2 as (-> & -> & ->). tauto. }
    congruence.
Qed.

Lemma SFeqb_trans (x y z : spec_float) :
  SFeqb x y = true -> SFeqb y z = true -> SFeqb x z = true.
Proof.
  rewrite !SFeqb_true.
  destruct x as [sx | sx | | sx mx ex], y as [sy | sy | | sy my ey],
    z as [sz | sz | | sz mz ez]; try tauto; try congruence.
  intros (-> & -> & ->) (-> & -> & ->). tauto.
Qed.

(** ** The two instantiations, again *)

Lemma double_arith : IEEE_arith double double_ops.
Proof.
  split.
  - exact sub_spec.
  - exact mul_spec.
  - exact div_spec.
  - exact sqrt_spec.
Qed.

Lemma float_arith : IEEE_arith float float_ops.
Proof. split; reflexivity. Qed.

Lemma instantiation_arith (i : instantiation) :
  IEEE_arith (scalar_of i) (scalar_of_ops i).
Proof. destruct i; [exact float_arith | exact double_arith]. Qed.

(** ** Scalars, again *)

Section MoreScalars.

Context {Scalar : Type} {ops : ScalarOps Scalar}.
Hypothesis ieee : IEEE_scalar Scalar ops.
Hypothesis arith : IEEE_arith Scalar ops.

Lemma s_sub_add_neg (x y : Scalar) : s_sub x y = s_add x (s_neg y).
Proof.
  apply (to_SF_inj _ _ ieee).
  rewrite (sub_SF _ _ arith), (add_SF _ _ ieee), (neg_SF _ _ ieee).
  apply SFsub_add_opp.
Qed.

Lemma s_neg_involutive (x : Scalar) : s_neg (s_neg x) = x.
Proof.
  apply (to_SF_inj _ _ ieee). rewrite !(neg_SF _ _ ieee).
  apply SFopp_involutive.
Qed.

Lemma s_mul_comm (x y : Scalar) : s_mul x y = s_mul y x.
Proof.
  apply (to_SF_inj _ _ ieee). rewrite !(mul_SF _ _ arith). apply SFmul_comm.
Qed.

Lemma s_mul_neg_l (x y : Scalar) : s_mul (s_neg x) y = s_neg (s_mul x y).
Proof.
  apply (to_SF_inj _ _ ieee).
  rewrite (neg_SF _ _ ieee), !(mul_SF _ _ arith), (neg_SF _ _ ieee).
  apply SFmul_opp_l.
Qed.

Lemma s_div_neg_l (x y : Scalar) : s_div (s_neg x) y = s_neg (s_div x y).
Proof.
  apply (to_SF_inj _ _ ieee).
  rewrite (neg_SF _ _ ieee), !(div_SF _ _ arith), (neg_SF _ _ ieee).
  apply SFdiv_opp_l.
Qed.

Lemma s_mul_neg_neg (x : Scalar) : s_mul (s_neg x) (s_neg x) = s_mul x x.
Proof.
  rewrite s_mul_neg_l, (s_mul_comm x (s_neg x)), s_mul_neg_l.
  apply s_neg_involutive.
Qed.

Lemma s_eqb_sym (x y : Scalar) : s_eqb x y = s_eqb y x.
Proof. rewrite !(eqb_SF _ _ ieee). apply SFeqb_sym. Qed.

Lemma s_eqb_trans (x y z : Scalar) :
  s_eqb x y = true -> s_eqb y z = true -> s_eqb x z = true.
Proof. rewrite !(eqb_SF _ _ ieee). apply SFeqb_trans. Qed.

Lemma s_sub_swap (x y : Scalar) :
  s_eqb (s_sub y x) (s_neg (s_sub x y)) = negb (is_nan (s_sub x y)).
Proof.
  rewrite (eqb_SF _ _ ieee), (neg_SF _ _ ieee). unfold is_nan.
  rewrite !(sub_SF _ _ arith).
  destruct (SFsub_swap s_prec s_emax (to_SF x) (to_SF y)) as [E | (s & s' & E1 & E2)].
  - rewrite E, SFeqb_refl.
    destruct (SFsub s_prec s_emax (to_SF x) (to_SF y)); reflexivity.
  - rewrite E1, E2. reflexivity.
Qed.

Lemma s_sub_diag (x : Scalar) : s_eqb (s_sub x x) s_zero = is_finite x.
Proof.
  rewrite (eqb_SF _ _ ieee), (sub_SF _ _ arith), (zero_SF _ _ ieee).
  rewrite SFsub_diag, SFeqb_zero. unfold is_finite.
  destruct (to_SF x); reflexivity.
Qed.

Lemma s_add_zero_r (x : Scalar) : s_eqb (s_add x s_zero) x = negb (is_nan x).
Proof.
  rewrite (eqb_SF _ _ ieee), (add_SF _ _ ieee), (zero_SF _ _ ieee).
  rewrite SFadd_zero_r. unfold is_nan. destruct (to_SF x); reflexivity.
Qed.

Lemma s_add_zero_l (x : Scalar) : s_eqb (s_add s_zero x) x = negb (is_nan x).
Proof.
  rewrite (eqb_SF _ _ ieee), (add_SF _ _ ieee), (zero_SF _ _ ieee).
  rewrite SFadd_zero_l. unfold is_nan. destruct (to_SF x); reflexivity.
Qed.

(** The IEEE value of the norm. *)
Lemma norm_SF (v : Vector2D Scalar) :
  to_SF (norm v) =
  SFsqrt s_prec s_emax
    (SFadd s_prec s_emax
       (SFmul s_prec s_emax (to_SF (at_ v 0)) (to_SF (at_ v 0)))
       (SFmul s_prec s_emax (to_SF (at_ v 1)) (to_SF (at_ v 1)))).
Proof.
  unfold norm.
  rewrite (sqrt_SF _ _ arith), (add_SF _ _ ieee), !(mul_SF _ _ arith).
  reflexivity.
Qed.

Lemma norm_not_negative (v : Vector2D Scalar) : is_negative (norm v) = false.
Proof.
  unfold is_negative. rewrite norm_SF.
  rewrite SFsqrt_nonneg; [reflexivity | ].
  apply SFadd_nonneg; apply SFmul_self_nonneg.
Qed.

Lemma norm_of_zeros (v : Vector2D Scalar) :
  is_zero (at_ v 0) = true -> is_zero (at_ v 1) = true ->
  to_SF (norm v) = S754_zero false.
Proof.
  unfold is_zero. intros Z0 Z1. rewrite norm_SF.
  destruct (to_SF (at_ v 0)) as [s0 | | | ]; try discriminate.
  destruct (to_SF (at_ v 1)) as [s1 | | | ]; try discriminate.
  cbn [SFmul]. rewrite !xorb_nilpotent. reflexivity.
Qed.

Lemma norm_of_nan (v : Vector2D Scalar) :
  is_nan (at_ v 0) = true \/ is_nan (at_ v 1) = true ->
  to_SF (norm v) = S754_nan.
Proof.
  unfold is_nan. intros N. rewrite norm_SF.
  destruct N as [N | N].
  - destruct (to_SF (at_ v 0)); try discriminate. reflexivity.
  - destruct (to_SF (at_ v 1)); try discriminate.
    cbn [SFmul].
    destruct (SFmul s_prec s_emax (to_SF (at_ v 0)) (to_SF (at_ v 0)));
      reflexivity.
Qed.

Lemma s_div_nan (x n : Scalar) :
  to_SF n = S754_nan -> is_nan (s_div x n) = true.
Proof.
  intros N. unfold is_nan. rewrite (div_SF _ _ arith), N.
  destruct (to_SF x); reflexivity.
Qed.

End MoreScalars.

Section InPlace.

Context {Scalar : Type} {ops : ScalarOps Scalar}.

(** A two-iteration loop that assigns to component [i] of the vector at
    [this] a function of that component and of component [i] of the vector
    at [vec2], with [this] and [vec2] possibly the same vector. *)
Lemma assign_loop (f : Scalar -> Scalar -> Scalar) (this vec2 : addr)
    (st : store Scalar) :
  let st1 := assign st this 0 (f (load st this 0) (load st vec2 0)) in
  let st2 := assign st1 this 1 (f (load st1 this 1) (load st1 vec2 1)) in
  st2 this = Vector2D_xy (f (at_ (st this) 0) (at_ (st vec2) 0))
                         (f (at_ (st this) 1) (at_ (st vec2) 1)) /\
  (forall p, p <> this -> st2 p = st p).
Proof.
  cbv zeta. split.
  - rewrite assign_same. unfold load.
    destruct (Nat.eq_dec vec2 this) as [-> | N].
    + rewrite !assign_same. destruct (st this) as [[x y]]. reflexivity.
    + rewrite assign_same, (assign_other _ _ _ _ _ N).
      destruct (st this) as [[x y]], (st vec2) as [[x' y']]. reflexivity.
  - intros p N. rewrite !assign_other by exact N. reflexivity.
Qed.

(** The same with a scalar operand. *)
Lemma assign_loop_scalar (f : Scalar -> Scalar -> Scalar) (this : addr)
    (scale : Scalar) (st : store Scalar) :
  let st1 := assign st this 0 (f (load st this 0) scale) in
  let st2 := assign st1 this 1 (f (load st1 this 1) scale) in
  st2 this = Vector2D_xy (f (at_ (st this) 0) scale) (f (at_ (st this) 1) scale) /\
  (forall p, p <> this -> st2 p = st p).
Proof.
  cbv zeta. split.
  - rewrite assign_same. unfold load. rewrite assign_same.
    destruct (st this) as [[x y]]. reflexivity.
  - intros p N. rewrite !assign_other by exact N. reflexivity.
Qed.

End InPlace.

(** X7. The compound assignments agree with the operators that return by
    value, also when both operands are the same vector: after [a += b] the
    vector [a] holds [a + b] as computed on the old values, after [a -= b] it
    holds [a - b], after [a *= s] it holds [a * s] and after [a /= s] it holds
    [a / s]; each returns a reference to [a] and leaves every other vector as
    it was. *)
Theorem compound_assignments (Scalar : Type) (ops : ScalarOps Scalar)
    (st : store Scalar) (this vec2 : addr) (scale : Scalar) :
  (fst (op_add_assign this vec2 st) = this /\
   snd (op_add_assign this vec2 st) this = op_add (st this) (st vec2) /\
   (forall p, p <> this -> snd (op_add_assign this vec2 st) p = st p)) /\
  (fst (op_sub_assign this vec2 st) = this /\
   snd (op_sub_assign this vec2 st) this = op_sub (st this) (st vec2) /\
   (forall p, p <> this -> snd (op_sub_assign this vec2 st) p = st p)) /\
  (fst (op_mul_assign this scale st) = this /\
   snd (op_mul_assign this scale st) this = op_mul (st this) scale /\
   (forall p, p <> this -> snd (op_mul_assign this scale st) p = st p)) /\
  (fst (op_div_assign this scale st) = this /\
   snd (op_div_assign this scale st) this = op_div (st this) scale /\
   (forall p, p <> this -> snd (op_div_assign this scale st) p = st p)).
Proof.
  split; [ | split; [ | split]]; (split; [reflexivity | ]).
  - exact (assign_loop s_add this vec2 st).
  - exact (assign_loop s_sub this vec2 st).
  - exact (assign_loop_scalar s_mul this scale st).
  - exact (assign_loop_scalar s_div this scale st).
Qed.

(** X8. Subtraction is the addition of the opposite, component for
    component, and the opposite of the opposite is the vector itself, in both
    instantiations. *)
Theorem subtraction_adds_opposite (i : instantiation) (a b : Vector2D (scalar_of i)) :
  op_sub a b = op_add a (op_neg b) /\ op_neg (op_neg a) = a.
Proof.
  pose proof (instantiation_IEEE i) as ieee.
  pose proof (instantiation_arith i) as arith.
  destruct a as [[x0 x1]], b as [[y0 y1]].
  unfold op_sub, op_add, op_neg, Vector2D_xy, at_, coeff.
  cbn [eigen_vector_2x_ fst snd Z.eqb].
  rewrite !(s_sub_add_neg ieee arith), !(s_neg_involutive ieee).
  split; reflexivity.
Qed.

(** X9. The dot product is commutative, and the norm is the square root of
    the dot product of the vector with itself. *)
Theorem dot_commutative (i : instantiation) (a b : Vector2D (scalar_of i)) :
  dot a b = dot b a /\ norm a = s_sqrt (dot a a).
Proof.
  pose proof (instantiation_IEEE i) as ieee.
  pose proof (instantiation_arith i) as arith.
  split; [ | reflexivity].
  unfold dot.
  rewrite (s_mul_comm ieee arith (at_ a 0)), (s_mul_comm ieee arith (at_ a 1)).
  reflexivity.
Qed.

(** X10. The cross product is antisymmetric up to [==]: [b.cross(a)]
    compares equal to [-a.cross(b)] exactly when [a.cross(b)] is not a NaN; and
    [a.cross(a) == 0] exactly when the product of the two components of [a] is
    finite. *)
Theorem cross_antisymmetric (i : instantiation) (a b : Vector2D (scalar_of i)) :
  s_eqb (cross b a) (s_neg (cross a b)) = negb (is_nan (cross a b)) /\
  s_eqb (cross a a) s_zero = is_finite (s_mul (at_ a 0) (at_ a 1)).
Proof.
  pose proof (instantiation_IEEE i) as ieee.
  pose proof (instantiation_arith i) as arith.
  unfold cross. split.
  - rewrite (s_mul_comm ieee arith (at_ b 0)), (s_mul_comm ieee arith (at_ b 1)).
    apply (s_sub_swap ieee arith).
  - rewrite (s_mul_comm ieee arith (at_ a 1)). apply (s_sub_diag ieee arith).
Qed.

(** X11. The norm never has the sign bit set: it is a number that is not
    negative, a positive zero, the positive infinity or a NaN; and a vector and
    its opposite have the same norm. *)
Theorem norm_sign (i : instantiation) (a : Vector2D (scalar_of i)) :
  is_negative (norm a) = false /\ norm (op_neg a) = norm a.
Proof.
  pose proof (instantiation_IEEE i) as ieee.
  pose proof (instantiation_arith i) as arith.
  split; [apply (norm_not_negative ieee arith) | ].
  destruct a as [[x0 x1]].
  unfold norm, op_neg, Vector2D_xy, at_, coeff.
  cbn [eigen_vector_2x_ fst snd Z.eqb].
  rewrite !(s_mul_neg_neg ieee arith). reflexivity.
Qed.

(** X12. A vector whose two components are zeros, of either sign, has the
    norm [+0], and [normalize] leaves it, and the whole store, as it was. *)
Theorem normalize_zero_vector (i : instantiation) (st : store (scalar_of i))
    (this : addr) :
  is_zero (at_ (st this) 0) = true -> is_zero (at_ (st this) 1) = true ->
  to_SF (norm (st this)) = S754_zero false /\
  normalize this st = (this, st).
Proof.
  pose proof (instantiation_IEEE i) as ieee.
  pose proof (instantiation_arith i) as arith.
  intros Z0 Z1.
  pose proof (norm_of_zeros ieee arith (st this) Z0 Z1) as N.
  split; [exact N | ].
  destruct (normalize_spec this st) as (H1 & _ & H3).
  assert (T : to_bool (norm (st this)) = false).
  { rewrite (to_bool_zero ieee). unfold is_zero. rewrite N. reflexivity. }
  specialize (H3 T).
  destruct (normalize this st) as [r st']. cbn [fst snd] in *. congruence.
Qed.

(** X13. A NaN in either component makes the norm a NaN, which is not a
    zero, so that [normalize] divides: afterwards both components are NaN. *)
Theorem normalize_nan_vector (i : instantiation) (st : store (scalar_of i))
    (this : addr) :
  is_nan (at_ (st this) 0) = true \/ is_nan (at_ (st this) 1) = true ->
  is_nan (norm (st this)) = true /\
  is_nan (at_ (snd (normalize this st) this) 0) = true /\
  is_nan (at_ (snd (normalize this st) this) 1) = true.
Proof.
  pose proof (instantiation_IEEE i) as ieee.
  pose proof (instantiation_arith i) as arith.
  intros N.
  pose proof (norm_of_nan ieee arith (st this) N) as Nn.
  split; [unfold is_nan; rewrite Nn; reflexivity | ].
  destruct (normalize_spec this st) as (_ & H2 & _).
  assert (T : to_bool (norm (st this)) = true).
  { rewrite (to_bool_zero ieee). unfold is_zero. rewrite Nn. reflexivity. }
  rewrite (H2 T this), Nat.eqb_refl.
  unfold Vector2D_xy, at_, coeff. cbn [eigen_vector_2x_ fst snd Z.eqb].
  split; apply (s_div_nan arith); exact Nn.
Qed.

(** X14. [operator==] is symmetric and transitive. *)
Theorem op_eq_symmetric_transitive (i : instantiation)
    (a b c : Vector2D (scalar_of i)) :
  op_eq a b = op_eq b a /\
  (op_eq a b = true -> op_eq b c = true -> op_eq a c = true).
Proof.
  pose proof (instantiation_IEEE i) as ieee.
  rewrite !op_eq_components. split.
  - rewrite (s_eqb_sym ieee (at_ a 0)), (s_eqb_sym ieee (at_ a 1)). reflexivity.
  - intros H1 H2.
    apply andb_true_iff in H1. apply andb_true_iff in H2.
    destruct H1 as [H10 H11], H2 as [H20 H21].
    apply andb_true_iff. split.
    + exact (s_eqb_trans ieee _ _ _ H10 H20).
    + exact (s_eqb_trans ieee _ _ _ H11 H21).
Qed.

(** X15. The zero vector is neutral for the sum up to [==]: [a + (0,0)] and
    [(0,0) + a] compare equal to [a] exactly when no component of [a] is a
    NaN. *)
Theorem zero_vector_neutral (i : instantiation) (a : Vector2D (scalar_of i)) :
  op_eq (op_add a zero_vector) a =
    negb (is_nan (at_ a 0)) && negb (is_nan (at_ a 1)) /\
  op_eq (op_add zero_vector a) a =
    negb (is_nan (at_ a 0)) && negb (is_nan (at_ a 1)).
Proof.
  pose proof (instantiation_IEEE i) as ieee.
  rewrite !op_eq_components.
  destruct a as [[x0 x1]].
  unfold op_add, zero_vector, Vector2D_xy, at_, coeff.
  cbn [eigen_vector_2x_ fst snd Z.eqb].
  rewrite !(s_add_zero_r ieee), !(s_add_zero_l ieee). split; reflexivity.
Qed.

(** X16. The opposite goes through the scaling and the division by a
    scalar: [(-a) * s] is [-(a * s)] and [(-a) / s] is [-(a / s)], component
    for component. *)
Theorem opposite_through_scaling (i : instantiation) (a : Vector2D (scalar_of i))
    (s : scalar_of i) :
  op_mul (op_neg a) s = op_neg (op_mul a s) /\
  op_div (op_neg a) s = op_neg (op_div a s).
Proof.
  pose proof (instantiation_IEEE i) as ieee.
  pose proof (instantiation_arith i) as arith.
  destruct a as [[x0 x1]].
  unfold op_mul, op_div, op_neg, Vector2D_xy, at_, coeff.
  cbn [eigen_vector_2x_ fst snd Z.eqb].
  rewrite !(s_mul_neg_l ieee arith), !(s_div_neg_l ieee arith).
  split; reflexivity.
Qed.

Lemma new_copy_app {A : Type} (src ext : list A) (n : Z) (dst : list A) :
  new_copy src n = Ok dst -> new_copy (src ++ ext) n = Ok dst.
Proof.
  intros H. apply new_copy_Ok in H. destruct H as [R ->].
  apply new_copy_Ok. rewrite length_app. split; [lia | ].
  rewrite firstn_app.
  replace (Z.to_nat n - List.length src)%nat with 0%nat by lia.
  cbn [firstn]. rewrite app_nil_r. reflexivity.
Qed.

Lemma array_get_app {A : Type} (a ext : list A) (i : Z) (x : A) :
  array_get a i = Ok x -> array_get (a ++ ext) i = Ok x.
Proof.
  intros H. apply array_get_Ok in H. destruct H as [Ri H].
  apply array_get_Ok. split; [exact Ri | ].
  rewrite nth_error_app1; [exact H | ].
  apply nth_error_Some. rewrite H. discriminate.
Qed.

Section SameNorm.

Context {Scalar : Type} {ops : ScalarOps Scalar}.
Hypothesis ieee : IEEE_scalar Scalar ops.
Hypothesis arith : IEEE_arith Scalar ops.

(** Scalars that compare equal have the same square. *)
Lemma s_eqb_square (x y : Scalar) :
  s_eqb x y = true -> s_mul x x = s_mul y y.
Proof.
  rewrite (eqb_SF _ _ ieee). intros E. apply SFeqb_true in E.
  apply (to_SF_inj _ _ ieee). rewrite !(mul_SF _ _ arith).
  destruct (to_SF x) as [sx | sx | | sx mx ex], (to_SF y) as [sy | sy | | sy my ey];
    try contradiction.
  - cbn [SFmul]. rewrite !xorb_nilpotent. reflexivity.
  - subst sy. reflexivity.
  - destruct E as (-> & -> & ->). reflexivity.
Qed.

(** Scalars that compare equal have opposites that compare equal. *)
Lemma s_eqb_neg (x y : Scalar) :
  s_eqb x y = true -> s_eqb (s_neg x) (s_neg y) = true.
Proof.
  rewrite !(eqb_SF _ _ ieee), !(neg_SF _ _ ieee). intros E.
  apply SFeqb_true in E. apply SFeqb_true.
  destruct (to_SF x) as [sx | sx | | sx mx ex], (to_SF y) as [sy | sy | | sy my ey];
    try contradiction; cbn [SFopp].
  - exact I.
  - subst sy. reflexivity.
  - destruct E as (-> & -> & ->). repeat split.
Qed.

End SameNorm.

(** X17. Vectors that compare equal under [operator==] have the same norm,
    and their opposites compare equal. *)
Theorem op_eq_respected (i : instantiation) (a b : Vector2D (scalar_of i)) :
  op_eq a b = true ->
  norm a = norm b /\ op_eq (op_neg a) (op_neg b) = true.
Proof.
  pose proof (instantiation_IEEE i) as ieee.
  pose proof (instantiation_arith i) as arith.
  rewrite !op_eq_components. intros H.
  apply andb_true_iff in H. destruct H as [H0 H1].
  split.
  - unfold norm.
    rewrite (s_eqb_square ieee arith _ _ H0), (s_eqb_square ieee arith _ _ H1).
    reflexivity.
  - destruct a as [[x0 x1]], b as [[y0 y1]].
    unfold op_neg, Vector2D_xy, at_, coeff in *.
    cbn [eigen_vector_2x_ fst snd Z.eqb] in *.
    rewrite (s_eqb_neg ieee _ _ H0), (s_eqb_neg ieee _ _ H1). reflexivity.
Qed.

(** X18. Construction looks at the leading cells of the caller's arrays
    only: when [init] returns a mesh, it returns the same mesh from arrays
    that continue with further cells. *)
Theorem init_reads_leading_cells (Scalar : Type) (Dim vn : Z) (V V' : list Scalar)
    (en : Z) (E E' vpe vpe' : list Z) (u : bool) (m : VolumetricMesh Scalar) :
  init Dim vn V en E vpe u = Ok m ->
  init Dim vn (V ++ V') en (E ++ E') (vpe ++ vpe') u = Ok m.
Proof.
  unfold init. intros H.
  apply bind_Ok in H. destruct H as (n & Hn & H). rewrite Hn. cbn [bind].
  apply bind_Ok in H. destruct H as (vs & Hvs & H).
  rewrite (new_copy_app _ V' _ _ Hvs). cbn [bind].
  apply bind_Ok in H. destruct H as (ct & Hct & H).
  assert (Hct' : (if u
                  then k <- array_get (vpe ++ vpe') 0 ;;
                       total <- int_mul en k ;; Ok ([k], total)
                  else cs <- new_copy (vpe ++ vpe') en ;;
                       total <- sum_loop cs 0 (Z.to_nat en) 0 ;; Ok (cs, total))
                 = Ok ct).
  { destruct u.
    - apply bind_Ok in Hct. destruct Hct as (k & Hk & Hct).
      rewrite (array_get_app _ vpe' _ _ Hk). exact Hct.
    - apply bind_Ok in Hct. destruct Hct as (cs & Hcs & Hct).
      rewrite (new_copy_app _ vpe' _ _ Hcs). exact Hct. }
  rewrite Hct'. cbn [bind].
  apply bind_Ok in H. destruct H as (es & Hes & H).
  rewrite (new_copy_app _ E' _ _ Hes). cbn [bind]. exact H.
Qed.

(** ** The further theorems at concrete inputs *)

(** X2 at [pentagon_segment_mesh]: ten scalars, two counts, seven indices. *)
Lemma buffers_of_pentagon_segment :
  exists m, pentagon_segment_mesh = Ok m /\ initialized 2 m /\
    Z.of_nat (List.length (vertices_ m)) = 5 * 2 /\
    Z.of_nat (List.length (vert_per_ele_ m)) = 2 /\
    Z.of_nat (List.length (elements_ m)) = 5 + 2.
Proof.
  eexists. split; [vm_compute; reflexivity | ].
  match goal with
  | |- initialized 2 ?m /\ _ =>
      assert (I : initialized 2 m)
        by (exists 5, [0; 0; 2; 0; 3; 2; 1; 3; -1; 2]%float, 2, [0; 1; 2; 3; 4; 4; 0];
            right; exists [5; 2]; reflexivity);
      destruct (buffers_sized_exactly double 2 m I) as (Hv & _ & Hr)
  end.
  split; [exact I | ]. split; [exact Hv | ]. exact (Hr eq_refl).
Defined.

(** X4 at [square_mesh]: slot 2 of element 1 holds vertex 2. *)
Lemma square_mesh_queries_return :
  exists m, square_mesh = Ok m /\ initialized 2 m /\ valid_connectivity m /\
    (exists pos, vertPos 2 m 3 = Ok pos /\ List.length pos = 2%nat) /\
    (exists g pos, global_vert_idx m 1 2 = Ok g /\ 0 <= g < 4 /\
       eleVertPos 2 m 1 2 = Ok pos /\ List.length pos = 2%nat).
Proof.
  eexists. split; [vm_compute; reflexivity | ].
  match goal with
  | |- initialized 2 ?m /\ _ =>
      assert (I : initialized 2 m)
        by (exists 4, [0; 0; 1; 0; 0; 1; 1; 1]%float, 2, [0; 1; 2; 1; 3; 2];
            left; exists 3; reflexivity);
      assert (W : valid_connectivity m)
        by (split; cbn [elements_ vert_per_ele_ vert_num_ firstn Z.to_nat
                          Pos.to_nat Pos.iter_op Nat.add Z.mul Pos.mul];
            repeat constructor; lia);
      destruct (valid_mesh_queries_return double 2 m I) as [Hv He]
  end.
  split; [exact I | ]. split; [exact W | ]. split.
  - apply (Hv 3). unfold vertNum. cbn [vert_num_]. lia.
  - apply (He W 1 2 3).
    + unfold eleNum. cbn [ele_num_]. lia.
    + reflexivity.
    + lia.
Defined.

(** X5 at [pentagon_segment_mesh]: the segment has two vertices. *)
Lemma pentagon_segment_bounds :
  exists m, pentagon_segment_mesh = Ok m /\ initialized 2 m /\
    vertPos 2 m 5 = Exit msg_vertex /\
    eleVertPos 2 m (-3) 0 = Exit msg_element /\
    eleVertNum m 1 = Ok 2 /\
    eleVertPos 2 m 1 2 = Exit msg_local.
Proof.
  eexists. split; [vm_compute; reflexivity | ].
  match goal with
  | |- initialized 2 ?m /\ _ =>
      assert (I : initialized 2 m)
        by (exists 5, [0; 0; 2; 0; 3; 2; 1; 3; -1; 2]%float, 2, [0; 1; 2; 3; 4; 4; 0];
            right; exists [5; 2]; reflexivity);
      destruct (bounds_enforced_everywhere double 2 m I) as (Hv & He & Hl)
  end.
  split; [exact I | ].
  split; [apply Hv; right; unfold vertNum; cbn [vert_num_]; lia | ].
  split; [apply He; left; lia | ].
  destruct (Hl 1 ltac:(unfold eleNum; cbn [ele_num_]; lia)) as (c & Ec & Hc).
  injection Ec as <-.
  split; [reflexivity | ]. apply Hc. right. lia.
Defined.

(** X6 at [pentagon_segment_mesh]: slot 1 of the segment is cell 6. *)
Lemma pentagon_segment_slots :
  exists m, pentagon_segment_mesh = Ok m /\ initialized 2 m /\
    Forall (fun c => 0 <= c) (vert_per_ele_ m) /\
    ele_idx_start m 1 1 = Ok 5 /\ ele_idx_start m 0 4 = Ok 0 /\
    0 <= 5 + 1 < Z.of_nat (List.length (elements_ m)) /\
    global_vert_idx m 1 1 = array_get (elements_ m) (5 + 1) /\
    (5 + 1 = 0 + 4 -> 1 = 0 /\ 1 = 4).
Proof.
  eexists. split; [vm_compute; reflexivity | ].
  match goal with
  | |- initialized 2 ?m /\ _ =>
      assert (I : initialized 2 m)
        by (exists 5, [0; 0; 2; 0; 3; 2; 1; 3; -1; 2]%float, 2, [0; 1; 2; 3; 4; 4; 0];
            right; exists [5; 2]; reflexivity);
      assert (W : Forall (fun c => 0 <= c) (vert_per_ele_ m))
        by (cbn [vert_per_ele_ firstn Z.to_nat Pos.to_nat Pos.iter_op Nat.add fst];
            repeat constructor; lia);
      destruct (connectivity_slots_disjoint double 2 m I W) as [Hin Hinj]
  end.
  split; [exact I | ]. split; [exact W | ].
  split; [reflexivity | ]. split; [reflexivity | ].
  destruct (Hin 1 1 5 eq_refl) as [Hr Hg].
  split; [exact Hr | ]. split; [exact Hg | ].
  exact (Hinj 1 1 5 0 4 0 eq_refl eq_refl).
Defined.

(** X7 at the vector [(1, 2)] added to itself, and scaled by 3. *)
Lemma compound_assignments_aliased :
  let st := store_of (vec 1 2) (vec 3 4) in
  1%nat <> 0%nat /\
  snd (op_add_assign 0%nat 0%nat st) 0%nat = vec 2 4 /\
  snd (op_add_assign 0%nat 0%nat st) 1%nat = vec 3 4 /\
  snd (op_sub_assign 0%nat 1%nat st) 0%nat = vec (-2) (-2) /\
  snd (op_mul_assign 0%nat 3%float st) 0%nat = vec 3 6 /\
  snd (op_mul_assign 0%nat 3%float st) 1%nat = vec 3 4.
Proof.
  cbv zeta.
  assert (N : 1%nat <> 0%nat) by discriminate.
  destruct (compound_assignments double double_ops (store_of (vec 1 2) (vec 3 4))
              0%nat 0%nat 3%float) as ((_ & A1 & A2) & _ & (_ & M1 & M2) & _).
  destruct (compound_assignments double double_ops (store_of (vec 1 2) (vec 3 4))
              0%nat 1%nat 3%float) as (_ & (_ & S1 & _) & _).
  split; [exact N | ]. split; [exact A1 | ]. split; [exact (A2 1%nat N) | ].
  split; [exact S1 | ]. split; [exact M1 | exact (M2 1%nat N)].
Defined.

(** X12 at the vector [(-0, +0)]. *)
Lemma normalize_signed_zeros :
  let st := store_of (vec neg_zero 0) (vec 7 7) in
  is_zero (at_ (st 0%nat) 0) = true /\ is_zero (at_ (st 0%nat) 1) = true /\
  to_SF (norm (st 0%nat)) = S754_zero false /\
  normalize 0%nat st = (0%nat, st).
Proof.
  cbv zeta.
  assert (Z0 : is_zero (at_ (store_of (vec neg_zero 0) (vec 7 7) 0%nat) 0) = true)
    by reflexivity.
  assert (Z1 : is_zero (at_ (store_of (vec neg_zero 0) (vec 7 7) 0%nat) 1) = true)
    by reflexivity.
  destruct (normalize_zero_vector Vector2D_double
              (store_of (vec neg_zero 0) (vec 7 7)) 0%nat Z0 Z1) as [Hn Hs].
  split; [exact Z0 | ]. split; [exact Z1 | ]. split; [exact Hn | exact Hs].
Defined.

(** X13 at the vector [(1, NaN)]. *)
Lemma normalize_one_nan :
  let st := store_of (vec 1 nan) (vec 7 7) in
  (is_nan (at_ (st 0%nat) 0) = true \/ is_nan (at_ (st 0%nat) 1) = true) /\
  is_nan (norm (st 0%nat)) = true /\
  is_nan (at_ (snd (normalize 0%nat st) 0%nat) 0) = true /\
  is_nan (at_ (snd (normalize 0%nat st) 0%nat) 1) = true.
Proof.
  cbv zeta.
  assert (N : is_nan (at_ (store_of (vec 1 nan) (vec 7 7) 0%nat) 0) = true \/
              is_nan (at_ (store_of (vec 1 nan) (vec 7 7) 0%nat) 1) = true)
    by (right; reflexivity).
  split; [exact N | ].
  exact (normalize_nan_vector Vector2D_double
           (store_of (vec 1 nan) (vec 7 7)) 0%nat N).
Defined.

(** X14 at [(1, 0)], [(1, -0)] and [(1, 0)]. *)
Lemma op_eq_through_negative_zero :
  op_eq (vec 1 0) (vec 1 neg_zero) = true /\
  op_eq (vec 1 neg_zero) (vec 1 0) = true /\
  op_eq (vec 1 0) (vec 1 0) = true.
Proof.
  assert (H1 : op_eq (vec 1 0) (vec 1 neg_zero) = true) by reflexivity.
  assert (H2 : op_eq (vec 1 neg_zero) (vec 1 0) = true) by reflexivity.
  split; [exact H1 | ]. split; [exact H2 | ].
  exact (proj2 (op_eq_symmetric_transitive Vector2D_double
                  (vec 1 0) (vec 1 neg_zero) (vec 1 0)) H1 H2).
Defined.

(** X17 at [(0, 3)] and [(-0, 3)], which differ in the sign of a zero. *)
Lemma op_eq_respected_zeros :
  op_eq (vec 0 3) (vec neg_zero 3) = true /\
  norm (vec 0 3) = norm (vec neg_zero 3) /\
  op_eq (op_neg (vec 0 3)) (op_neg (vec neg_zero 3)) = true.
Proof.
  assert (H : op_eq (vec 0 3) (vec neg_zero 3) = true) by reflexivity.
  split; [exact H | ].
  exact (op_eq_respected Vector2D_double (vec 0 3) (vec neg_zero 3) H).
Defined.

(** X18 at the arrays of [square_mesh], each continued with further cells. *)
Lemma square_mesh_from_longer_arrays :
  exists m, square_mesh = Ok m /\
    VolumetricMesh_uniform 2 4 ([0; 0; 1; 0; 0; 1; 1; 1] ++ [9; 9])%float 2
      ([0; 1; 2; 1; 3; 2] ++ [8; 8; 8]) 3 = Ok m.
Proof.
  eexists. split; [vm_compute; reflexivity | ].
  exact (init_reads_leading_cells double 2 4 [0; 0; 1; 0; 0; 1; 1; 1]%float
           [9; 9]%float 2 [0; 1; 2; 1; 3; 2] [8; 8; 8] [3] [] true _ eq_refl).
Defined.

(** * Bounds enforcement *)

Section SlotReads.

Variable Scalar : Type.
Variable Dim : Z.

(** With both indices in range the two checks of [eleVertPos] pass and the
    start offset is computed. *)
Lemma ele_idx_start_in_range (m : VolumetricMesh Scalar) (e l c : Z) :
  initialized Dim m ->
  0 <= e < ele_num_ m -> eleVertNum m e = Ok c -> 0 <= l < c ->
  exists s, ele_idx_start m e l = Ok s.
Proof.
  intros I Re Ec Rl.
  destruct (initialized_sizes _ Dim m I) as (_ & _ & Hz).
  destruct (uniform_ele_type_ m) eqn:Hu.
  - destruct Hz as (k & Ek & Rk & _).
    unfold eleVertNum in Ec. rewrite Hu, Ek in Ec. injection Ec as <-.
    exists (e * k). unfold ele_idx_start. rewrite Hu, Ek.
    destruct (e <? 0) eqn:E1; [lia | ].
    destruct (e >=? ele_num_ m) eqn:E2; [lia | ]. cbn [orb].
    change (array_get [k] 0) with (Ok k). cbn [bind].
    destruct (l <? 0) eqn:E3; [lia | ].
    destruct (l >=? k) eqn:E4; [lia | ]. cbn [orb].
    apply to_int_in_range. assert (0 <= e * k <= ele_num_ m * k) by nia. int_lia.
  - destruct Hz as (_ & _ & _ & Hs).
    unfold eleVertNum in Ec. rewrite Hu in Ec.
    eexists. exact (ele_idx_start_ragged _ m _ e l c Hu Hs Re Ec Rl).
Qed.

(** With vertex counts that are not negative, the slot is read inside the
    connectivity buffer. *)
Lemma global_vert_idx_reads (m : VolumetricMesh Scalar) (e l c : Z) :
  initialized Dim m -> Forall (fun c => 0 <= c) (vert_per_ele_ m) ->
  0 <= e < ele_num_ m -> eleVertNum m e = Ok c -> 0 <= l < c ->
  exists s g,
    ele_idx_start m e l = Ok s /\
    0 <= s + l < Z.of_nat (List.length (elements_ m)) /\
    array_get (elements_ m) (s + l) = Ok g /\
    global_vert_idx m e l = Ok g.
Proof.
  intros I Hc Re Ec Rl.
  destruct (ele_idx_start_in_range m e l c I Re Ec Rl) as [s Hs].
  destruct (slot_offset _ Dim m e l s I Hc Hs) as (c' & Ec' & _ & _ & _ & R0 & R1).
  rewrite Ec in Ec'. injection Ec' as <-.
  destruct (initialized_sizes _ Dim m I) as (_ & Lm & _).
  assert (Ro : 0 <= s + l < Z.of_nat (List.length (elements_ m))) by lia.
  destruct (array_get_inside (elements_ m) (s + l) Ro) as [g Eg].
  exists s, g. split; [exact Hs | ]. split; [exact Ro | ]. split; [exact Eg | ].
  unfold global_vert_idx. rewrite Hs. cbn [bind]. unfold int_add.
  rewrite to_int_in_range by int_lia. cbn [bind]. exact Eg.
Qed.

(** With both indices in range, [eleVertPos] takes the fatal path exactly
    when the index it has read names no vertex. *)
Lemma eleVertPos_exit_iff (m : VolumetricMesh Scalar) (e l c : Z) :
  initialized Dim m ->
  0 <= e < eleNum m -> eleVertNum m e = Ok c -> 0 <= l < c ->
  is_exit (eleVertPos Dim m e l) = true <->
  exists g, global_vert_idx m e l = Ok g /\ (g < 0 \/ vertNum m <= g).
Proof.
  intros I Re Ec Rl.
  pose proof (global_vert_idx_not_exit _ m e l c Re Ec Rl) as Hn.
  rewrite eleVertPos_global. unfold vertNum. split.
  - destruct (global_vert_idx m e l) as [g | msg | ]; cbn [bind];
      [ | cbn in Hn; discriminate | cbn; discriminate].
    intros Hx. exists g. split; [reflexivity | ].
    destruct (Z.lt_ge_cases g 0) as [L | L]; [left; exact L | ].
    destruct (Z.lt_ge_cases g (vert_num_ m)) as [U | U]; [ | right; lia].
    destruct (vertPos_returns _ Dim m g I ltac:(lia)) as [pos Ep].
    rewrite Ep in Hx. discriminate.
  - intros (g & Eg & Rg). rewrite Eg. cbn [bind].
    rewrite (vertPos_outside _ Dim m g Rg). reflexivity.
Qed.

End SlotReads.

(** C4, as the code has it. On an initialized mesh, [vertPos(-1)],
    [vertPos(vertNum())] and [eleVertPos(eleNum(), 0)] take the fatal path, and
    so does [eleVertPos(0, eleVertNum(0))]: for every count that
    [eleVertNum(0)] returns, which it does in a uniform mesh and in a ragged
    mesh with an element, and for every local index whatever when the mesh has
    no element. With an index in range [vertPos] returns a position. With both
    indices in range [eleVertPos] passes its own two checks, and it takes the
    fatal path exactly when the connectivity slot it reads holds an index
    outside [0, vertNum()): it returns a position when the index read is in
    that range, and ends in the fatal path of [vertPos], with its message,
    otherwise. When no vertex count is negative the slot is read inside the
    connectivity buffer, so that one of the two happens. *)
Theorem C4_bounds_enforcement (Scalar : Type) (Dim : Z) (m : VolumetricMesh Scalar) :
  initialized Dim m ->
  vertPos Dim m (-1) = Exit msg_vertex /\
  vertPos Dim m (vertNum m) = Exit msg_vertex /\
  eleVertPos Dim m (eleNum m) 0 = Exit msg_element /\
  ((isUniformElementType m = true \/ 0 < eleNum m ->
    exists msg, (k <- eleVertNum m 0 ;; eleVertPos Dim m 0 k) = Exit msg) /\
   (forall k, eleVertNum m 0 = Ok k -> exists msg, eleVertPos Dim m 0 k = Exit msg) /\
   (eleNum m <= 0 -> forall k, eleVertPos Dim m 0 k = Exit msg_element)) /\
  (forall i, 0 <= i < vertNum m -> exists pos, vertPos Dim m i = Ok pos) /\
  (forall e l c, 0 <= e < eleNum m -> eleVertNum m e = Ok c -> 0 <= l < c ->
     is_exit (global_vert_idx m e l) = false /\
     (is_exit (eleVertPos Dim m e l) = true <->
      exists g, global_vert_idx m e l = Ok g /\ (g < 0 \/ vertNum m <= g)) /\
     (forall g, global_vert_idx m e l = Ok g -> 0 <= g < vertNum m ->
        exists pos, eleVertPos Dim m e l = Ok pos) /\
     (forall g, global_vert_idx m e l = Ok g -> g < 0 \/ vertNum m <= g ->
        eleVertPos Dim m e l = Exit msg_vertex) /\
     (Forall (fun c => 0 <= c) (vert_per_ele_ m) ->
      exists g, global_vert_idx m e l = Ok g /\
        ((0 <= g < vertNum m /\ exists pos, eleVertPos Dim m e l = Ok pos) \/
         ((g < 0 \/ vertNum m <= g) /\ eleVertPos Dim m e l = Exit msg_vertex)))).
Proof.
  intros I.
  split; [apply vertPos_outside; unfold vertNum; lia | ].
  split; [apply vertPos_outside; unfold vertNum; lia | ].
  split; [apply eleVertPos_element_outside; unfold eleNum; lia | ].
  split.
  { split; [ | split].
    - intros R. destruct (eleVertNum_first _ Dim m I R) as [k Ek].
      rewrite Ek. cbn [bind]. eexists. apply eleVertPos_local_outside. exact Ek.
    - intros k Ek. eexists. apply eleVertPos_local_outside. exact Ek.
    - intros R k. apply eleVertPos_element_outside. unfold eleNum in R. lia. }
  split.
  { intros i Ri. apply vertPos_returns; assumption. }
  intros e l c Re Ec Rl.
  assert (Hin : forall g, global_vert_idx m e l = Ok g -> 0 <= g < vertNum m ->
                  exists pos, eleVertPos Dim m e l = Ok pos).
  { intros g Eg Rg. rewrite eleVertPos_global, Eg. cbn [bind].
    apply vertPos_returns; assumption. }
  assert (Hout : forall g, global_vert_idx m e l = Ok g -> g < 0 \/ vertNum m <= g ->
                   eleVertPos Dim m e l = Exit msg_vertex).
  { intros g Eg Rg. rewrite eleVertPos_global, Eg. cbn [bind].
    apply vertPos_outside. exact Rg. }
  split; [exact (global_vert_idx_not_exit _ m e l c Re Ec Rl) | ].
  split; [exact (eleVertPos_exit_iff _ Dim m e l c I Re Ec Rl) | ].
  split; [exact Hin | ]. split; [exact Hout | ].
  intros Hc.
  destruct (global_vert_idx_reads _ Dim m e l c I Hc Re Ec Rl)
    as (s & g & _ & _ & _ & Eg).
  exists g. split; [exact Eg | ].
  destruct (Z.lt_ge_cases g 0) as [L | L]; [right; split; [left; exact L | apply (Hout g Eg); left; exact L] | ].
  destruct (Z.lt_ge_cases g (vertNum m)) as [U | U].
  - left. split; [lia | apply (Hin g Eg); lia].
  - right. split; [right; lia | apply (Hout g Eg); right; lia].
Qed.

(** C4 at [square_mesh], whose connectivity is valid, at [dangling_mesh],
    where slot 2 of element 0 holds 7, and at [empty_ragged_mesh], which has
    no element. *)
Lemma C4_three_meshes :
  (exists m, square_mesh = Ok m /\ initialized 2 m /\
     Forall (fun c => 0 <= c) (vert_per_ele_ m) /\
     vertPos 2 m (-1) = Exit msg_vertex /\
     vertPos 2 m 4 = Exit msg_vertex /\
     eleVertPos 2 m 2 0 = Exit msg_element /\
     eleVertPos 2 m 0 3 = Exit msg_local /\
     (exists pos, vertPos 2 m 3 = Ok pos) /\
     (0 <= 1 < eleNum m /\ eleVertNum m 1 = Ok 3 /\ 0 <= 2 < 3) /\
     global_vert_idx m 1 2 = Ok 2 /\
     exists pos, eleVertPos 2 m 1 2 = Ok pos) /\
  (exists m, dangling_mesh = Ok m /\ initialized 2 m /\
     (0 <= 0 < eleNum m /\ eleVertNum m 0 = Ok 3 /\ 0 <= 2 < 3) /\
     global_vert_idx m 0 2 = Ok 7 /\ (7 < 0 \/ vertNum m <= 7) /\
     is_exit (eleVertPos 2 m 0 2) = true /\
     eleVertPos 2 m 0 2 = Exit msg_vertex) /\
  (exists m, empty_ragged_mesh = Ok m /\ initialized 2 m /\ eleNum m <= 0 /\
     forall k, eleVertPos 2 m 0 k = Exit msg_element).
Proof.
  split; [ | split].
  - eexists. split; [vm_compute; reflexivity | ].
    match goal with
    | |- initialized 2 ?m /\ _ =>
        assert (I : initialized 2 m)
          by (exists 4, [0; 0; 1; 0; 0; 1; 1; 1]%float, 2, [0; 1; 2; 1; 3; 2];
              left; exists 3; reflexivity);
        assert (W : Forall (fun c => 0 <= c) (vert_per_ele_ m))
          by (cbn [vert_per_ele_ fst]; repeat constructor; lia);
        destruct (C4_bounds_enforcement double 2 m I)
          as (H1 & H2 & H3 & (H4 & _ & _) & H5 & H6)
    end.
    split; [exact I | ]. split; [exact W | ].
    split; [exact H1 | ]. split; [exact H2 | ]. split; [exact H3 | ].
    split.
    { destruct (H4 (or_introl eq_refl)) as [msg Hm].
      cbn [eleVertNum bind] in Hm. reflexivity. }
    split; [apply (H5 3); unfold vertNum; cbn [vert_num_]; lia | ].
    assert (R : 0 <= 1 < 2 /\ Ok 3 = Ok 3 /\ 0 <= 2 < 3)
      by (split; [lia | split; [reflexivity | lia]]).
    split; [exact R | ].
    destruct R as (Re & Ec & Rl).
    destruct (H6 1 2 3 Re Ec Rl) as (_ & _ & Hin & _ & Hr).
    split; [reflexivity | ].
    destruct (Hr W) as (g & Eg & [[Rg Hp] | [Rg Hx]]).
    + exact Hp.
    + injection Eg as <-. unfold vertNum in Rg. cbn [vert_num_] in Rg. lia.
  - eexists. split; [vm_compute; reflexivity | ].
    match goal with
    | |- initialized 2 ?m /\ _ =>
        assert (I : initialized 2 m)
          by (exists 3, [0; 0; 1; 0; 0; 1]%float, 1, [0; 1; 7];
              left; exists 3; reflexivity);
        destruct (C4_bounds_enforcement double 2 m I)
          as (_ & _ & _ & _ & _ & H6)
    end.
    split; [exact I | ].
    assert (R : 0 <= 0 < 1 /\ Ok 3 = Ok 3 /\ 0 <= 2 < 3)
      by (split; [lia | split; [reflexivity | lia]]).
    split; [exact R | ].
    destruct R as (Re & Ec & Rl).
    destruct (H6 0 2 3 Re Ec Rl) as (_ & Hiff & _ & Hout & _).
    assert (Rg : 7 < 0 \/ 3 <= 7) by (right; lia).
    split; [reflexivity | ]. split; [exact Rg | ].
    split.
    + apply (proj2 Hiff). exists 7. split; [reflexivity | exact Rg].
    + exact (Hout 7 eq_refl Rg).
  - eexists. split; [vm_compute; reflexivity | ].
    match goal with
    | |- initialized 2 ?m /\ _ =>
        assert (I : initialized 2 m)
          by (exists 0, [], 0, []; right; exists []; reflexivity);
        destruct (C4_bounds_enforcement double 2 m I)
          as (_ & _ & _ & (_ & _ & H4) & _)
    end.
    split; [exact I | ].
    assert (R : 0 <= 0) by lia.
    split; [exact R | ]. exact (H4 R).
Defined.
